(** * AirDesignAi backend: the recognition-to-solution pipeline

    A shallow embedding of
      - [services/ocr.py]    ([OCRService]: image enhancement, text cleaning,
                              confidence),
      - [services/solver.py] ([MathSolverService]: [solve_generic],
                              [build_graph_data]),
      - [routes/solve.py]    ([_rate_limit], [solve_equation]),
    followed by the properties of the pipeline that hold of that code and the
    ones that do not.

    Python values are embedded as follows.
      - [str] is a list of Unicode code points ([N]); the replacement table of
        the cleaner contains non-ASCII keys, so bytes would not do.
      - a raised [Exception] is the [Raise] branch of the result type [py];
        [try ... except Exception] is a [match] on it.
      - the module-level dict [_RATE_LIMIT_BUCKET] is a [gmap] from identities
        to timestamp lists, threaded through the route as explicit state.
      - the confidence is a Python [float] computed by division,
        multiplication and addition, each of which rounds: it is an IEEE 754
        binary64 number, with the operations of [SpecFloat].
      - the timestamps of the rate limiter and the sample abscissae of the
        graph are rationals [Q]: what is proved of them (order, the window
        of 60 seconds, the number of samples) does not depend on rounding.
      - Pillow, Tesseract, NumPy and SymPy are not part of the repository:
        they are interfaces ([OcrEngine], [Algebra]) whose operations may
        raise. *)

From Stdlib Require Import NArith ZArith QArith Qround List Ascii String Bool Lia Lqa.
From Stdlib Require Import SpecFloat.
From stdpp Require Import base decidable option list sorting gmap.

Local Open Scope nat_scope.

(* ===================================================================== *)
(** * 1. Python strings *)
(* ===================================================================== *)

(** A Python [str]: a sequence of code points. *)
Abbreviation char := N (only parsing).
Abbreviation pystr := (list N) (only parsing).

(** An ASCII literal as a Python string. *)
Definition str (s : string) : pystr :=
  List.map N_of_ascii (list_ascii_of_string s).

(** [str.isspace] of one character, which is also what [\s] matches in a
    [str] pattern: the code points for which CPython's
    [Py_UNICODE_ISSPACE] holds. *)
Definition is_space (c : char) : bool :=
  ((9 <=? c) && (c <=? 13) || (28 <=? c) && (c <=? 32) || (c =? 133)
   || (c =? 160) || (c =? 5760) || (8192 <=? c) && (c <=? 8202)
   || (c =? 8232) || (c =? 8233) || (c =? 8239) || (c =? 8287)
   || (c =? 12288))%N.

(** [s.startswith(p)]. *)
Fixpoint startswith (p s : pystr) : bool :=
  match p, s with
  | [], _ => true
  | a :: p', b :: s' => (a =? b)%N && startswith p' s'
  | _ :: _, [] => false
  end.

(** [sub in s]. *)
Fixpoint contains (sub s : pystr) : bool :=
  startswith sub s ||
  match s with
  | [] => false
  | _ :: s' => contains sub s'
  end.

(** [a == b] on strings. *)
Fixpoint str_eqb (a b : pystr) : bool :=
  match a, b with
  | [], [] => true
  | x :: a', y :: b' => (x =? y)%N && str_eqb a' b'
  | _, _ => false
  end.

(** [s.replace(old, new)] scans left to right and rewrites every
    non-overlapping occurrence of [old].  [skip] counts the characters of an
    occurrence that was just rewritten and are still to be passed over. *)
Fixpoint replace_from (old new : pystr) (skip : nat) (s : pystr) : pystr :=
  match s with
  | [] => []
  | c :: s' =>
      match skip with
      | S k => replace_from old new k s'
      | O =>
          if startswith old s
          then new ++ replace_from old new (length old - 1) s'
          else c :: replace_from old new 0 s'
      end
  end.

(** With an empty [old], Python inserts [new] before every character and at
    the end. *)
Definition str_replace (old new s : pystr) : pystr :=
  match old with
  | [] => new ++ List.flat_map (fun c => c :: new) s
  | _ :: _ => replace_from old new 0 s
  end.

(** [s.split(sep)] for a one-character separator. *)
Fixpoint split_on (sep : char) (s : pystr) : list pystr :=
  match s with
  | [] => [[]]
  | c :: s' =>
      if (c =? sep)%N then [] :: split_on sep s'
      else match split_on sep s' with
           | [] => [[c]]
           | w :: ws => (c :: w) :: ws
           end
  end.

(** [s.strip()]. *)
Fixpoint lstrip (s : pystr) : pystr :=
  match s with
  | [] => []
  | c :: s' => if is_space c then lstrip s' else s
  end.

Definition rstrip (s : pystr) : pystr := rev (lstrip (rev s)).

Definition strip (s : pystr) : pystr := rstrip (lstrip s).

(** [sep.join(parts)]. *)
Fixpoint join (sep : pystr) (parts : list pystr) : pystr :=
  match parts with
  | [] => []
  | [p] => p
  | p :: ps => p ++ sep ++ join sep ps
  end.

(* --------------------------------------------------------------------- *)
(** ** Regular expressions, as far as [ocr.py] uses them *)
(* --------------------------------------------------------------------- *)

(** The two character-class patterns of [ocr.py] parse (Python [re]) into a
    plain sequence of one-position items: a bracket set, literals, the
    beginning-of-string anchor and the dot. *)
Inductive re_item :=
| ReIn (negate : bool) (ranges : list (char * char))
| ReLit (c : char)
| ReAtBeginning
| ReAny.

Definition in_ranges (ranges : list (char * char)) (c : char) : bool :=
  existsb (fun r => (fst r <=? c) && (c <=? snd r))%N ranges.

(** Does the item accept character [c]?  (The anchor consumes nothing and is
    handled by [re_match].) *)
Definition item_accepts (it : re_item) (c : char) : bool :=
  match it with
  | ReIn negate ranges => xorb negate (in_ranges ranges c)
  | ReLit d => (c =? d)%N
  | ReAtBeginning => false
  | ReAny => negb (c =? 10)%N
  end.

(** [re_match pat pos s]: the pattern matches at absolute position [pos],
    where [s] is the rest of the subject from there on; the result is the
    number of characters consumed.  Without [re.MULTILINE] the anchor holds at
    position 0 only. *)
Fixpoint re_match (pat : list re_item) (pos : nat) (s : pystr) : option nat :=
  match pat with
  | [] => Some 0
  | ReAtBeginning :: pat' =>
      if Nat.eqb pos 0 then re_match pat' pos s else None
  | it :: pat' =>
      match s with
      | [] => None
      | c :: s' =>
          if item_accepts it c
          then option_map S (re_match pat' (S pos) s')
          else None
      end
  end.

(** [re.sub(pat, repl, s)] for a pattern that cannot match the empty string
    (both patterns below start with a bracket set): leftmost non-overlapping
    matches are replaced by the literal [repl]. *)
Fixpoint re_sub_from (pat : list re_item) (repl : pystr) (pos skip : nat)
    (s : pystr) : pystr :=
  match s with
  | [] => []
  | c :: s' =>
      match skip with
      | S k => re_sub_from pat repl (S pos) k s'
      | O =>
          match re_match pat pos s with
          | Some (S n) => repl ++ re_sub_from pat repl (S pos) n s'
          | _ => c :: re_sub_from pat repl (S pos) 0 s'
          end
      end
  end.

Definition re_sub (pat : list re_item) (repl s : pystr) : pystr :=
  re_sub_from pat repl 0 0 s.

(** [len(re.findall(pat, s))], same restriction. *)
Fixpoint re_count_from (pat : list re_item) (pos skip : nat) (s : pystr) : nat :=
  match s with
  | [] => 0
  | c :: s' =>
      match skip with
      | S k => re_count_from pat (S pos) k s'
      | O =>
          match re_match pat pos s with
          | Some (S n) => S (re_count_from pat (S pos) n s')
          | _ => re_count_from pat (S pos) 0 s'
          end
      end
  end.

Definition re_findall_count (pat : list re_item) (s : pystr) : nat :=
  re_count_from pat 0 0 s.

(** [re.sub(r'\s+', '', s)]: every maximal run of whitespace is deleted, that
    is, every whitespace character is. *)
Definition re_sub_whitespace (s : pystr) : pystr :=
  List.filter (fun c => negb (is_space c)) s.

(* ===================================================================== *)
(** * 2. [services/ocr.py] *)
(* ===================================================================== *)

(** The dict [replacements] of [_clean_math_text], in insertion order (the
    order in which [for old, new in replacements.items()] visits it).  The
    non-ASCII keys and values are given by code point:
    [×] 215, [÷] 247, [−] 8722, [–] 8211, [√] 8730, [π] 960, [∫] 8747,
    [∑] 8721, [∂] 8706, [∆] 8710, [∇] 8711. *)
Definition replacements : list (pystr * pystr) :=
  [ (str "x", str "*");
    ([215%N], str "*");
    ([247%N], str "/");
    ([8722%N], str "-");
    ([8211%N], str "-");
    (str "=", str "=");
    (str "(", str "(");
    (str ")", str ")");
    (str "[", str "(");
    (str "]", str ")");
    (str "{", str "(");
    (str "}", str ")");
    (str "sqrt", [8730%N]);
    (str "pi", [960%N]);
    (str "int", [8747%N]);
    (str "sum", [8721%N]);
    (str "partial", [8706%N]);
    (str "delta", [8710%N]);
    (str "nabla", [8711%N]);
    (str "ln", str "log");
    (str "log10", str "log");
    (str "sin", str "sin");
    (str "cos", str "cos");
    (str "tan", str "tan");
    (str "arcsin", str "asin");
    (str "arccos", str "acos");
    (str "arctan", str "atan") ].

(** The bracket set that opens both patterns: in
    [[^0-9+\-*/=()[]{}^...]] the set ends at the first []], so it holds the
    digits and [+ - * / = ( ) [] only. *)
Definition math_set : list (char * char) :=
  [ (48, 57); (43, 43); (45, 45); (42, 42); (47, 47); (61, 61); (40, 40);
    (41, 41); (91, 91) ]%N.

(** What follows the set is read as a sequence: the literals [{] and [}], the
    anchor [^], the literal symbols and letters, the dot, the comma and a
    literal []]. *)
Definition non_math_pattern : list re_item :=
  ReIn true math_set :: ReLit 123 :: ReLit 125 :: ReAtBeginning ::
  List.map ReLit
    ([8730; 960; 8747; 8721; 8706; 8710; 8711]%N ++
     str "abcdefghijklmnopqrstuvwxyzABCDEFGHIJKLMNOPQRSTUVWXYZ") ++
  [ReAny; ReLit 44; ReLit 93].

(** The pattern of [_calculate_confidence], [[0-9+\-*/=()[]{}^√π∫∑∂∆∇]]. *)
Definition math_chars_pattern : list re_item :=
  ReIn false math_set :: ReLit 123 :: ReLit 125 :: ReAtBeginning ::
  List.map ReLit ([8730; 960; 8747; 8721; 8706; 8710; 8711]%N) ++
  [ReLit 93].

(** The loop [for old, new in replacements.items(): text = text.replace(old, new)]. *)
Definition apply_replacements (rules : list (pystr * pystr)) (text : pystr) : pystr :=
  fold_left (fun t r => str_replace (fst r) (snd r) t) rules text.

Definition _clean_math_text (text : pystr) : pystr :=
  let text := re_sub_whitespace text in
  let text := apply_replacements replacements text in
  let text := re_sub non_math_pattern [] text in
  strip text.

(* --------------------------------------------------------------------- *)
(** ** Floats *)
(* --------------------------------------------------------------------- *)

(** A Python [float] is an IEEE 754 binary64 number: 53 bits of precision,
    infinities at exponent 1024.  [S754_finite s m e] is the number
    [(-1)^s * m * 2^e]. *)
Abbreviation float := spec_float (only parsing).
Definition prec : Z := 53.
Definition emax : Z := 1024.

(** [x * y] and [x + y]: the exact result rounded to the nearest float, ties
    to even. *)
Definition float_mul : float -> float -> float := SFmul prec emax.
Definition float_add : float -> float -> float := SFadd prec emax.

(** [x < y] and [x <= y]; both are false when an operand is NaN. *)
Definition float_lt : float -> float -> bool := SFltb.
Definition float_le : float -> float -> bool := SFleb.

(** [a / b] of two [int]s with [0 <= a] and [0 < b], as the lengths divided
    in [_calculate_confidence] are: [0 / b] is [0.0], and otherwise the
    quotient of the two integers is rounded once to the nearest float.  (For
    operands below 2^53 this is the IEEE division of the operands converted
    to floats.  A quotient beyond the range of floats, which takes a text of
    more than 2^1023 characters, is an infinity here, where Python raises
    [OverflowError].) *)
Definition int_truediv (a b : Z) : float :=
  match a with
  | Z0 => S754_zero false
  | _ =>
      let '(mz, ez, lz) := SFdiv_core_binary prec emax a 0 b 0 in
      binary_round_aux prec emax false mz ez lz
  end.

(** [float(n)]. *)
Definition float_of_int (n : Z) : float := binary_normalize prec emax n 0 false.

(** The literals [0.0], [0.4], [0.6] and [100.0]: the floats nearest to the
    decimal numbers, [0x1.999999999999ap-2], [0x1.3333333333333p-1] and
    [0x1.9p+6]. *)
Definition float_0_0 : float := S754_zero false.
Definition float_0_4 : float := S754_finite false 7205759403792794 (-54).
Definition float_0_6 : float := S754_finite false 5404319552844595 (-53).
Definition float_100_0 : float := S754_finite false 7036874417766400 (-46).

(** [min(a, b)]: [b] if [b < a], else [a]. *)
Definition py_min (a b : float) : float := if float_lt b a then b else a.

(** [x == y] as the same float datum (the signs of zeros are told apart). *)
Definition float_same (x y : float) : bool :=
  match x, y with
  | S754_zero a, S754_zero b | S754_infinity a, S754_infinity b => Bool.eqb a b
  | S754_nan, S754_nan => true
  | S754_finite a m e, S754_finite b m' e' =>
      Bool.eqb a b && (m =? m')%positive && (e =? e')%Z
  | _, _ => false
  end.

(** [_calculate_confidence]. *)
Definition _calculate_confidence (original_text cleaned_text : pystr) : float :=
  match cleaned_text with
  | [] => float_0_0
  | _ =>
      let length_ratio :=
        int_truediv (Z.of_nat (length cleaned_text))
                    (Z.of_nat (Nat.max (length original_text) 1)) in
      let math_chars := re_findall_count math_chars_pattern cleaned_text in
      let math_ratio :=
        int_truediv (Z.of_nat math_chars) (Z.of_nat (Nat.max (length cleaned_text) 1)) in
      let confidence :=
        float_mul (float_add (float_mul length_ratio float_0_4)
                             (float_mul math_ratio float_0_6))
                  float_100_0 in
      py_min confidence float_100_0
  end.

(** A single-channel image: rows of pixel values in 0..255. *)
Definition gray_image := list (list Z).

(** [_enhance_image]: [np.where(img_array > threshold, 255, 0)]. *)
Definition _enhance_image (image : gray_image) : gray_image :=
  let threshold := 128%Z in
  List.map (List.map (fun p => if (p >? threshold)%Z then 255%Z else 0%Z)) image.

(* --------------------------------------------------------------------- *)
(** ** Exceptions *)
(* --------------------------------------------------------------------- *)

(** A raised [Exception]; [exn_msg] is its [str(e)]. *)
Record exn := Exception { exn_msg : pystr }.

(** The outcome of a Python call that may raise. *)
Inductive py (A : Type) : Type :=
| Return (a : A)
| Raise (e : exn).
Arguments Return {A} a.
Arguments Raise {A} e.

Definition py_bind {A B} (m : py A) (k : A -> py B) : py B :=
  match m with
  | Return a => k a
  | Raise e => Raise e
  end.

Notation "'let*' x ':=' m 'in' k" := (py_bind m (fun x => k))
  (at level 10, x name, m at level 100, k at level 200).

(** [[f(a) for a in l]] where [f] may raise: stops at the first exception. *)
Fixpoint py_map {A B} (f : A -> py B) (l : list A) : py (list B) :=
  match l with
  | [] => Return []
  | a :: l' => let* b := f a in let* bs := py_map f l' in Return (b :: bs)
  end.

(** [l[i]]. *)
Definition py_index {A} (l : list A) (i : nat) : py A :=
  match nth_error l i with
  | Some a => Return a
  | None => Raise (Exception (str "list index out of range"))
  end.

(** [image_base64.split(',')[1] if ',' in image_base64 else image_base64]:
    the payload behind a data-URI header. *)
Definition data_uri_payload (image_base64 : pystr) : py pystr :=
  if contains (str ",") image_base64
  then py_index (split_on 44%N image_base64) 1
  else Return image_base64.

(** What [ocr.py] asks of [base64], Pillow and Tesseract. *)
Class OcrEngine := {
  image : Type;
  b64decode : pystr -> py (list N);
  Image_open : list N -> py image;
  convert_L : image -> py gray_image;
  image_to_string : gray_image -> py pystr
}.

Section Ocr.
Context `{OcrEngine}.

(** The body of the [try] in [extract_math_from_image]. *)
Definition extract_math_body (image_base64 : pystr) : py (pystr * float) :=
  let* payload := data_uri_payload image_base64 in
  let* image_data := b64decode payload in
  let* img := Image_open image_data in
  let* img := convert_L img in
  let img := _enhance_image img in
  let* text := image_to_string img in
  let cleaned_text := _clean_math_text text in
  let confidence := _calculate_confidence text cleaned_text in
  Return (cleaned_text, confidence).

(** [except Exception as e: ... return "", 0.0]. *)
Definition extract_math_from_image (image_base64 : pystr) : pystr * float :=
  match extract_math_body image_base64 with
  | Return r => r
  | Raise _ => ([], float_0_0)
  end.
End Ocr.

(* ===================================================================== *)
(** * Auxiliary notions for the proofs *)
(* ===================================================================== *)

(** One left-to-right pass of [s.replace(old, new)]: at an occurrence of
    [old] the output takes [new] and the scan resumes behind the occurrence;
    elsewhere one character is copied. *)
Inductive rewrites (old new : pystr) : pystr -> pystr -> Prop :=
| rw_nil : rewrites old new [] []
| rw_hit rest out :
    rewrites old new rest out ->
    rewrites old new (old ++ rest) (new ++ out)
| rw_skip c s out :
    startswith old (c :: s) = false ->
    rewrites old new s out ->
    rewrites old new (c :: s) (c :: out).

(** Two strings are comparable when one is a prefix of the other. *)
Definition comparable (a b : pystr) : bool := startswith a b || startswith b a.

(** [s.endswith(g)]. *)
Definition endswith (g s : pystr) : bool :=
  (length g <=? length s) && str_eqb (drop (length s - length g) s) g.

(** A rule [old -> new] is split as [new = alpha ++ nu ++ gamma] with [alpha]
    a prefix and [gamma] a suffix of [old]: [alpha] and [gamma] are text the
    rule leaves in place.  [no_overlap_suffix] and [no_overlap_infix] say
    that the pattern [p] cannot lie across the rewritten core of an
    occurrence of [new]: no suffix of [p] longer than [alpha] lines up with
    the start of [new], and [p] does not line up with [new] from an offset
    inside [alpha ++ nu] unless it ends within [alpha]. *)
Definition no_overlap_suffix (alpha new p : pystr) : bool :=
  forallb (fun i => (length p - i <=? length alpha) || negb (comparable (drop i p) new))
          (seq 0 (length p)).

Definition no_overlap_infix (alpha nu new p : pystr) : bool :=
  forallb (fun j => (j + length p <=? length alpha) || negb (comparable p (drop j new)))
          (seq 1 (length alpha + length nu - 1)).

(** The split of [new] with [a] characters of [alpha] and [g] of [gamma]. *)
Definition split_ok (old new p : pystr) (a g : nat) : bool :=
  let alpha := take a new in
  let nu := take (length new - a - g) (drop a new) in
  let gamma := drop (length new - g) new in
  (a + g <=? length new) && startswith alpha old && endswith gamma old &&
  no_overlap_suffix alpha new p && no_overlap_infix alpha nu new p.

(** The rule [old -> new] cannot create an occurrence of [p]: it is the
    identity, or some split of it keeps [p] off the rewritten core. *)
Definition rule_preserves (p : pystr) (r : pystr * pystr) : bool :=
  let old := fst r in
  let new := snd r in
  str_eqb old new ||
  existsb (fun a => existsb (split_ok old new p a) (seq 0 (length new - a + 1)))
          (seq 0 (length new + 1)).

(** The rule removes every occurrence of its own key: [new] brings none
    back, alone or together with the text behind it. *)
Definition rule_kills (r : pystr * pystr) : bool :=
  let old := fst r in
  let new := snd r in
  forallb (fun j => negb (comparable old (drop j new))) (seq 0 (length new)) &&
  existsb (fun a => startswith (take a new) old && no_overlap_suffix (take a new) new old)
          (seq 0 (length new + 1)).

(** After the rules [rules], the key of rule number [k] is gone for good. *)
Definition key_eliminated (rules : list (pystr * pystr)) (k : nat) : bool :=
  match nth_error rules k with
  | None => false
  | Some r => rule_kills r && forallb (rule_preserves (fst r)) (drop (S k) rules)
  end.

(** Every key of the table is a non-empty string. *)
Definition keys_nonempty (rules : list (pystr * pystr)) : Prop :=
  Forall (fun r => fst r <> []) rules.

(** No character of the string is whitespace. *)
Definition no_space (s : pystr) : Prop := forall c, In c s -> is_space c = false.


(** Rule number [k] cannot fire on the output of the loop: it is an identity
    rule, its key has been eliminated, or its key is the excepted one. *)
Definition settled (rules : list (pystr * pystr)) (exc : pystr) (k : nat) : bool :=
  match nth_error rules k with
  | None => true
  | Some r => str_eqb (fst r) (snd r) || key_eliminated rules k || str_eqb (fst r) exc
  end.

(* ===================================================================== *)
(** * 3. [services/solver.py] *)
(* ===================================================================== *)

(** A SymPy symbol, identified by its name; [str(sym)] is the name. *)
Abbreviation symbol := (list N) (only parsing).

(** A Python float as NumPy produces it. *)
Inductive pyfloat :=
| Finite (q : Q)
| PosInf
| NegInf
| NaN.

(** What [solver.py] asks of SymPy and NumPy.  Every operation may raise. *)
Class Algebra := {
  expr : Type;                (* what [sp.sympify] returns *)
  solution : Type;            (* what [sp.solve] returns *)
  func : Type;                (* what [sp.lambdify] returns *)
  ndarray : Type;             (* what calling it on an array returns *)
  value : Type;               (* an element met when iterating over that *)
  sympify : pystr -> py expr;
  Eq : expr -> expr -> py expr;                       (* [sp.Eq(lhs, rhs)] *)
  Eq_zero : expr -> py expr;                          (* [sp.Eq(expr, 0)] *)
  is_Equality : expr -> bool;                         (* [isinstance(e, sp.Equality)] *)
  free_symbols : expr -> py (gset symbol);            (* [e.free_symbols] *)
  solve : expr -> symbol -> py solution;              (* [sp.solve(e, sym)] *)
  solve_system : list expr -> list symbol -> py solution;   (* [sp.solve(eqs, syms)] *)
  latex : solution -> py pystr;                       (* [sp.latex(sol)] *)
  pretty : expr -> py pystr;                          (* [sp.pretty(e)] *)
  str_solution : solution -> py pystr;                (* [str(sol)] *)
  str_exprs : list expr -> py pystr;                  (* [str(eqs)] *)
  lambdify : symbol -> expr -> py func;               (* [sp.lambdify(sym, e, "numpy")] *)
  call_func : func -> list Q -> py ndarray;           (* [func(xs)] *)
  iterate : ndarray -> py (list value);               (* [for v in ys] *)
  Float_truth : value -> py bool;                     (* [bool(sp.Float(v))] *)
  float_of : value -> py pyfloat                      (* [float(v)] *)
}.

(** [list(s)] for a Python set [s]: the elements in the iteration order of
    the set, which is fixed by the hashes of the elements and not by the
    order of insertion. *)
Class PySet := {
  set_to_list : gset symbol -> list symbol;
  set_to_list_elements : forall s x, In x (set_to_list s) <-> x ∈ s
}.

(** The dict [build_graph_data] returns. *)
Record graph_data := GraphData {
  graph_x : list Q;
  graph_y : list (option pyfloat);
  graph_expression : pystr
}.

(** [np.linspace(start, stop, num)] in exact arithmetic:
    [start + i * (stop - start) / (num - 1)] for [i < num]. *)
Definition linspace (start stop : Q) (num : nat) : list Q :=
  List.map (fun i => (start + inject_Z (Z.of_nat i) * ((stop - start) / inject_Z (Z.of_nat (num - 1))))%Q)
           (seq 0 num).

(** [vars[0] if vars else self.x]. *)
Definition first_or_x (vars : list symbol) : symbol :=
  match vars with
  | v :: _ => v
  | [] => str "x"
  end.

(** [str(vars)] for a list of symbols. *)
Definition str_symbols (vars : list symbol) : pystr :=
  str "[" ++ join (str ", ") vars ++ str "]".

Section Solver.
Context `{Algebra} `{PySet}.

(** The test that sends [expression] to the branch for simultaneous
    equations. *)
Definition is_system (expression : pystr) : bool :=
  contains (str ";") expression ||
  (contains (str ",") expression && negb (contains (str "[") expression)).

(** One element of the list comprehension that builds [eqs]. *)
Definition parse_part (p : pystr) : py expr :=
  if negb (contains (str "=") p) then sympify p
  else
    let* l := py_index (split_on 61%N p) 0 in
    let* lhs := sympify l in
    let* r := py_index (split_on 61%N p) 1 in
    let* rhs := sympify r in
    Eq lhs rhs.

Definition solve_system_branch (expression : pystr) : py (pystr * pystr) :=
  let parts := List.map strip (split_on 44%N (str_replace (str ";") (str ",") expression)) in
  let* eqs := py_map parse_part parts in
  let* frees := py_map free_symbols eqs in
  let vars_to_solve := set_to_list (⋃ frees) in
  let vars_to_solve := match vars_to_solve with [] => [str "x"] | _ => vars_to_solve end in
  let* sol := solve_system eqs vars_to_solve in
  let* sol_latex := latex sol in
  let* eqs_str := str_exprs eqs in
  let* sol_str := str_solution sol in
  Return (sol_latex,
          str "Solved system of equations for " ++ str_symbols vars_to_solve ++
          str ": " ++ eqs_str ++ str " -> " ++ sol_str).

(** The [if isinstance(expr, sp.Equality)] branch, for the variable
    [solve_for]. *)
Definition solve_equation_for (e : expr) (solve_for : symbol) : py (pystr * pystr) :=
  let* sol := solve e solve_for in
  let* e_pretty := pretty e in
  let* sol_str := str_solution sol in
  let steps := str "Solved equation for " ++ solve_for ++ str ": " ++ e_pretty ++
               str " -> " ++ sol_str in
  let* solution_latex := latex sol in
  Return (solution_latex, steps).

(** The [else] branch. *)
Definition solve_expression_for (e eq : expr) (solve_for : symbol) : py (pystr * pystr) :=
  let* sol := solve eq solve_for in
  let* e_pretty := pretty e in
  let* sol_str := str_solution sol in
  let steps := str "Solved expression " ++ e_pretty ++ str " = 0 for " ++ solve_for ++
               str " -> " ++ sol_str in
  let* solution_latex := latex sol in
  Return (solution_latex, steps).

(** The body of the [try] in [solve_generic]. *)
Definition solve_generic_body (expression : pystr) : py (pystr * pystr) :=
  if is_system expression then solve_system_branch expression
  else
    let* e := sympify expression in
    if is_Equality e then
      let* free := free_symbols e in
      let vars := set_to_list free in
      let solve_for := first_or_x vars in
      solve_equation_for e solve_for
    else
      let* eq := Eq_zero e in
      let* free := free_symbols e in
      let vars := set_to_list free in
      let solve_for := first_or_x vars in
      solve_expression_for e eq solve_for.

(** [solve_generic]: [except Exception as e] turns every exception into an
    ordinary return value. *)
Definition solve_generic (expression : pystr) : py (pystr * pystr) :=
  match solve_generic_body expression with
  | Return r => Return r
  | Raise e => Return (str "Error: " ++ exn_msg e, str "Failed to solve: " ++ expression)
  end.

(** One element of the list comprehension
    [[float(v) if sp.Float(v) else None for v in ys]]. *)
Definition sample_y (v : value) : py (option pyfloat) :=
  let* keep := Float_truth v in
  if keep then (let* y := float_of v in Return (Some y)) else Return None.

Definition build_graph_data (expression : pystr) (var : pystr) : py graph_data :=
  let sym := var in
  let* e := sympify expression in
  let* f := lambdify sym e in
  let xs := linspace (-10) 10 400 in
  let* ys := call_func f xs in
  let* vs := iterate ys in
  let* y := py_map sample_y vs in
  Return {| graph_x := xs; graph_y := y; graph_expression := expression |}.
End Solver.

(* ===================================================================== *)
(** * 4. [routes/solve.py] *)
(* ===================================================================== *)

Definition _MAX_CALLS : nat := 30.
Definition _WINDOW_SECONDS : Q := 60.

(** A raised [HTTPException]. *)
Record http_exception := HTTPException { status_code : Z; detail : pystr }.

(** How a call that may raise [HTTPException] ends. *)
Inductive http_result (A : Type) : Type :=
| Respond (a : A)
| Abort (e : http_exception).
Arguments Respond {A} a.
Arguments Abort {A} e.

(** The module-level dict [_RATE_LIMIT_BUCKET]. *)
Abbreviation buckets := (gmap (list N) (list Q)) (only parsing).

(** [_RATE_LIMIT_BUCKET.get(user, [])]. *)
Definition bucket_of (B : buckets) (user_identifier : pystr) : list Q :=
  default [] (B !! user_identifier).

(** [[t for t in bucket if t >= window_start]]. *)
Definition purge (window_start : Q) (bucket : list Q) : list Q :=
  List.filter (fun t => Qle_bool window_start t) bucket.

(** [_rate_limit].  The bucket is the list object stored in the dict and the
    slice assignment rewrites it in place, so the dict holds the purged list
    whether or not the call is admitted. *)
Definition _rate_limit (B : buckets) (user_identifier : pystr) (now : Q)
  : buckets * http_result unit :=
  let window_start := (now - _WINDOW_SECONDS)%Q in
  let bucket := bucket_of B user_identifier in
  let bucket := purge window_start bucket in
  if _MAX_CALLS <=? length bucket
  then (<[user_identifier := bucket]> B,
        Abort (HTTPException 429 (str "Rate limit exceeded. Please slow down.")))
  else (<[user_identifier := bucket ++ [now]]> B, Respond tt).

Record SolveResponse := {
  expression : pystr;
  solution_ : pystr;
  steps : pystr;
  graph_data_ : option graph_data;
  confidence : float
}.

(** The tokens of the check [any(bad in latex for bad in [...])]. *)
Definition forbidden : list pystr :=
  [str "__"; str "import"; str "exec"; str "lambda"].

Section Route.
Context `{OcrEngine} `{Algebra} `{PySet}.

(** [solve_equation], for the caller [user_id] at time [now], after
    authentication. *)
Definition solve_equation (B : buckets) (user_id : pystr) (now : Q)
    (image_base64 : pystr) : buckets * http_result SolveResponse :=
  match _rate_limit B user_id now with
  | (B', Abort e) => (B', Abort e)
  | (B', Respond _) =>
      (B',
       match image_base64 with
       | [] => Abort (HTTPException 400 (str "Image is required"))
       | _ =>
           let '(latex_, confidence_) := extract_math_from_image image_base64 in
           match latex_ with
           | [] => Abort (HTTPException 422 (str "Unable to read equation"))
           | _ =>
               if existsb (fun bad => contains bad latex_) forbidden
               then Abort (HTTPException 400 (str "Invalid expression content"))
               else
                 match solve_generic latex_ with
                 | Raise exc =>
                     Abort (HTTPException 422
                              (str "Could not solve expression: " ++ exn_msg exc))
                 | Return (solution_latex, steps_) =>
                     let graph :=
                       match build_graph_data latex_ (str "x") with
                       | Return g => Some g
                       | Raise _ => None
                       end in
                     Respond {| expression := latex_;
                                solution_ := solution_latex;
                                steps := steps_;
                                graph_data_ := graph;
                                confidence := confidence_ |}
                 end
           end
       end)
  end.
End Route.

(** ** Runs of the admission controller *)

(** One log entry per call: who, when, and whether the call was admitted. *)
Definition call_log := list (list N * Q * bool).

Definition admitted (r : http_result unit) : bool :=
  match r with
  | Respond _ => true
  | Abort _ => false
  end.

(** The calls [(user, now)] made one after the other. *)
Definition rate_limit_step (st : buckets * call_log) (call : list N * Q)
  : buckets * call_log :=
  let '(B', r) := _rate_limit (fst st) (fst call) (snd call) in
  (B', snd st ++ [(fst call, snd call, admitted r)]).

Definition run_calls (calls : list (list N * Q)) : buckets * call_log :=
  fold_left rate_limit_step calls (∅, []).

(** The times of the admitted calls of one caller, in order. *)
Definition admitted_times (user : pystr) (log : call_log) : list Q :=
  List.map (fun e => snd (fst e))
    (List.filter (fun e => str_eqb (fst (fst e)) user && snd e) log).

(** [t] lies in the window of duration [_WINDOW_SECONDS] that starts at
    [tau], both ends included. *)
Definition in_window (tau t : Q) : bool :=
  Qle_bool tau t && Qle_bool t (tau + _WINDOW_SECONDS).

(** The times of all the calls of a log. *)
Definition log_times (log : call_log) : list Q :=
  List.map (fun e => snd (fst e)) log.

(** What the dict knows of the log.  Above every threshold [theta] that is
    no older than the window of any call made so far, the bucket of a caller
    holds exactly the times of that caller's admitted calls; and no bucket is
    longer than [_MAX_CALLS]. *)
Definition rate_limit_invariant (st : buckets * call_log) : Prop :=
  (forall user theta,
      (forall t, In t (log_times (snd st)) -> (t - _WINDOW_SECONDS <= theta)%Q) ->
      purge theta (admitted_times user (snd st)) = purge theta (bucket_of (fst st) user)) /\
  (forall user, length (bucket_of (fst st) user) <= _MAX_CALLS).

(** The calls are made at times that do not decrease. *)
Definition chronological (calls : list (list N * Q)) : Prop :=
  StronglySorted Qle (List.map snd calls).

(* ===================================================================== *)
(** * 5. Stand-in engines for the examples *)
(* ===================================================================== *)

(** An OCR engine that accepts every payload and reads [text] off it. *)
Definition reading_engine (text : pystr) : OcrEngine :=
  {| image := unit;
     b64decode := fun _ => Return [];
     Image_open := fun _ => Return tt;
     convert_L := fun _ => Return [];
     image_to_string := fun _ => Return text |}.

(** An OCR engine whose image decoder rejects every payload. *)
Definition rejecting_engine : OcrEngine :=
  {| image := unit;
     b64decode := fun _ => Return [];
     Image_open := fun _ => Raise (Exception (str "cannot identify image file"));
     convert_L := fun _ => Return [];
     image_to_string := fun _ => Return [] |}.

(** A parsed expression of the stand-in algebra engine. *)
Record demo_expr := DemoExpr {
  demo_is_equality : bool;
  demo_symbols : list (list N);
  demo_eval : Q -> pyfloat
}.

(** The texts the stand-in engine can parse.  Like SymPy it has no reading
    for a single [=]. *)
Definition demo_sympify (text : pystr) : py demo_expr :=
  if str_eqb text (str "x^2") then
    Return (DemoExpr false [str "x"] (fun x => Finite (x * x)))
  else if str_eqb text (str "1/(x+10)") then
    Return (DemoExpr false [str "x"]
              (fun x => if Qeq_bool (x + 10) 0 then PosInf else Finite (1 / (x + 10))))
  else if str_eqb text (str "Eq(a+b,[2][0])") then
    Return (DemoExpr true [str "a"; str "b"] (fun _ => NaN))
  else if str_eqb text (str "7") then
    Return (DemoExpr false [] (fun _ => Finite 7))
  else Raise (Exception (str "could not parse " ++ text)).

(** The stand-in algebra engine.  A solution is the name of the variable that
    was solved for; [sp.Float] is false on zero and refuses values that are
    not finite. *)
Definition demo_algebra : Algebra :=
  {| expr := demo_expr;
     solution := list N;
     func := Q -> pyfloat;
     ndarray := list pyfloat;
     value := pyfloat;
     sympify := demo_sympify;
     Eq := fun l r => Return (DemoExpr true (demo_symbols l ++ demo_symbols r) (demo_eval l));
     Eq_zero := fun e => Return (DemoExpr true (demo_symbols e) (demo_eval e));
     is_Equality := demo_is_equality;
     free_symbols := fun e => Return (list_to_set (demo_symbols e));
     solve := fun _ v => Return v;
     solve_system := fun _ vs => Return (join (str ",") vs);
     latex := fun s => Return s;
     pretty := fun _ => Return (str "<expr>");
     str_solution := fun s => Return s;
     str_exprs := fun _ => Return (str "<eqs>");
     lambdify := fun _ e => Return (demo_eval e);
     call_func := fun f xs => Return (List.map f xs);
     iterate := fun ys => Return ys;
     Float_truth := fun v =>
       match v with
       | Finite q => Return (negb (Qeq_bool q 0))
       | _ => Raise (Exception (str "cannot convert to integer ratio"))
       end;
     float_of := fun v => Return v |}.

(** A set iteration order: the one of [elements]. *)
Program Definition demo_pyset : PySet :=
  {| set_to_list := elements |}.
Next Obligation.
  intros s x. rewrite <- list_elem_of_In. apply elem_of_elements.
Qed.

(* ===================================================================== *)
(** * 6. The specification's reading of "first free variable" *)
(* ===================================================================== *)

(** [s.find(sub)]: the index of the first occurrence. *)
Fixpoint find (sub s : pystr) : option nat :=
  if startswith sub s then Some 0
  else match s with
       | [] => None
       | _ :: s' => option_map S (find sub s')
       end.

(** From the specification ("the first free variable, in deterministic
    left-to-right order of discovery in the input text"): among [syms], the
    symbol whose name occurs first in [text], with the index where it does. *)
Fixpoint leftmost_symbol (text : pystr) (syms : list (list N)) : option (nat * list N) :=
  match syms with
  | [] => None
  | v :: vs =>
      match find v text, leftmost_symbol text vs with
      | Some i, Some (j, w) => if i <=? j then Some (i, v) else Some (j, w)
      | Some i, None => Some (i, v)
      | None, r => r
      end
  end.

(** ** Notions for the further properties *)

(** A character that is no whitespace and occurs in no key of the table. *)
Definition foreign_char (c : N) : bool :=
  negb (is_space c) &&
  forallb (fun r => negb (existsb (N.eqb c) (fst r))) replacements.

(** The time of the last call of [user] among [calls], if any. *)
Definition last_call_time (user : pystr) (calls : list (list N * Q)) : option Q :=
  match List.filter (fun call => str_eqb (fst call) user) (rev calls) with
  | [] => None
  | call :: _ => Some (snd call)
  end.

(** A float that is no NaN and carries no minus sign. *)
Definition float_nonneg (x : float) : Prop :=
  match x with
  | S754_nan => False
  | S754_zero s | S754_infinity s | S754_finite s _ _ => s = false
  end.


(* ===================================================================== *)
(** * Properties *)
(* ===================================================================== *)

(** ** Prefixes and occurrences *)

Lemma startswith_spec (p s : pystr) :
  startswith p s = true <-> exists r, s = p ++ r.
Proof.
  revert s; induction p as [|a p IH]; intros s; simpl.
  - split; [exists s; reflexivity | reflexivity].
  - destruct s as [|b s].
    + split; [discriminate | intros [r Hr]; discriminate].
    + rewrite andb_true_iff, N.eqb_eq, IH. split.
      * intros [-> [r ->]]. exists r; reflexivity.
      * intros [r Hr]. injection Hr as -> ->. split; [reflexivity | exists r; reflexivity].
Qed.

Lemma startswith_refl_app (p r : pystr) : startswith p (p ++ r) = true.
Proof. apply startswith_spec. exists r; reflexivity. Qed.

Lemma startswith_nil_r (p : pystr) : startswith p [] = true -> p = [].
Proof. destruct p; [reflexivity | discriminate]. Qed.

Lemma startswith_length (p s : pystr) :
  startswith p s = true -> length p <= length s.
Proof.
  intros [r ->]%startswith_spec. rewrite length_app. lia.
Qed.

Lemma startswith_drop (p s : pystr) :
  startswith p s = true -> s = p ++ drop (length p) s.
Proof.
  intros [r ->]%startswith_spec. by rewrite drop_app_length.
Qed.

(** A prefix of a concatenation either fits in the first part or covers it. *)
Lemma startswith_app (p x y : pystr) :
  startswith p (x ++ y) = true ->
  (length p <= length x /\ startswith p x = true) \/
  (length x < length p /\ startswith x p = true /\
   startswith (drop (length x) p) y = true).
Proof.
  revert x; induction p as [|a p IH]; intros x Hp.
  - left. split; [simpl; lia | reflexivity].
  - destruct x as [|b x].
    + right. simpl. split; [lia | split; [reflexivity | exact Hp]].
    + simpl in Hp. apply andb_true_iff in Hp as [Hab Hp].
      destruct (IH x Hp) as [[Hl Hx] | (Hl & Hx & Hy)].
      * left. simpl. rewrite Hab, Hx. split; [lia | reflexivity].
      * right. simpl. apply N.eqb_eq in Hab as ->. rewrite N.eqb_refl, Hx.
        split; [lia | split; [reflexivity | exact Hy]].
Qed.

Lemma startswith_app_short (p x y : pystr) :
  length p <= length x -> startswith p (x ++ y) = true -> startswith p x = true.
Proof.
  intros Hl [[_ H] | [H _]]%startswith_app; [exact H | lia].
Qed.

Lemma startswith_app_l (p x y : pystr) :
  startswith p x = true -> startswith p (x ++ y) = true.
Proof.
  intros [r ->]%startswith_spec. rewrite <- app_assoc. apply startswith_refl_app.
Qed.

Lemma startswith_app_same (g q s : pystr) :
  startswith q s = true -> startswith (g ++ q) (g ++ s) = true.
Proof.
  intros [r ->]%startswith_spec. rewrite app_assoc. apply startswith_refl_app.
Qed.

Lemma contains_nil (s : pystr) : contains [] s = true.
Proof. destruct s; reflexivity. Qed.

Lemma contains_spec (p s : pystr) :
  contains p s = true <-> exists a b, s = a ++ p ++ b.
Proof.
  induction s as [|c s IH]; simpl.
  - rewrite orb_false_r, startswith_spec. split.
    + intros [r Hr]. exists [], r. exact Hr.
    + intros (a & b & Hab). destruct a; [|discriminate]. exists b. exact Hab.
  - rewrite orb_true_iff, startswith_spec, IH. split.
    + intros [[r Hr] | (a & b & ->)].
      * exists [], r. exact Hr.
      * exists (c :: a), b. reflexivity.
    + intros (a & b & Hab). destruct a as [|c' a].
      * left. exists b. exact Hab.
      * right. injection Hab as -> ->. exists a, b. reflexivity.
Qed.

Lemma contains_intro (a p b : pystr) : contains p (a ++ p ++ b) = true.
Proof. apply contains_spec. exists a, b; reflexivity. Qed.

Lemma contains_app_r (p a s : pystr) :
  contains p s = true -> contains p (a ++ s) = true.
Proof.
  intros (x & y & ->)%contains_spec. apply contains_spec.
  exists (a ++ x), y. by rewrite <- app_assoc.
Qed.

Lemma contains_app_l (p s b : pystr) :
  contains p s = true -> contains p (s ++ b) = true.
Proof.
  intros (x & y & ->)%contains_spec. apply contains_spec.
  exists x, (y ++ b). by rewrite <- !app_assoc.
Qed.

Lemma startswith_contains (p s : pystr) :
  startswith p s = true -> contains p s = true.
Proof.
  intros [r ->]%startswith_spec. apply (contains_intro []).
Qed.

Lemma contains_drop (p s : pystr) :
  contains p s = true <-> exists j, startswith p (drop j s) = true.
Proof.
  split.
  - intros (a & b & ->)%contains_spec. exists (length a).
    rewrite drop_app_length. apply startswith_refl_app.
  - intros [j Hj]. apply startswith_contains in Hj.
    rewrite <- (take_drop j s). by apply contains_app_r.
Qed.

Lemma contains_cons_inv (p : pystr) (c : N) (s : pystr) :
  contains p (c :: s) = true ->
  startswith p (c :: s) = true \/ contains p s = true.
Proof. simpl. intros H%orb_true_iff. exact H. Qed.

Lemma contains_char (c : N) (s : pystr) : contains [c] s = true <-> In c s.
Proof.
  induction s as [|d s IH]; simpl; [split; [discriminate | tauto]|].
  rewrite orb_true_iff, IH, andb_true_r, N.eqb_eq. split; intros [?|?]; auto.
Qed.

Lemma str_eqb_eq (a b : pystr) : str_eqb a b = true <-> a = b.
Proof.
  revert b; induction a as [|x a IH]; intros [|y b]; simpl; try (split; [discriminate|discriminate]).
  - tauto.
  - rewrite andb_true_iff, N.eqb_eq, IH. split; [intros [-> ->]; reflexivity | intros [= -> ->]; auto].
Qed.

(** ** [str.replace] as a rewriting relation *)

Lemma replace_from_skip (old new : pystr) (k : nat) (s : pystr) :
  replace_from old new k s = replace_from old new 0 (drop k s).
Proof.
  revert s; induction k as [|k IH]; intros s; [reflexivity|].
  destruct s as [|c s]; [reflexivity|]. simpl. apply IH.
Qed.

Lemma replace_from_hit (old new rest : pystr) :
  old <> [] ->
  replace_from old new 0 (old ++ rest) = new ++ replace_from old new 0 rest.
Proof.
  intros Hne. destruct old as [|a old]; [done|].
  change ((a :: old) ++ rest) with (a :: (old ++ rest)).
  assert (Hs : startswith (a :: old) (a :: (old ++ rest)) = true)
    by apply (startswith_refl_app (a :: old)).
  cbn [replace_from]. rewrite Hs. f_equal.
  rewrite replace_from_skip. simpl. rewrite Nat.sub_0_r.
  by rewrite drop_app_length.
Qed.

Lemma replace_from_rewrites (old new s : pystr) :
  old <> [] -> rewrites old new s (replace_from old new 0 s).
Proof.
  intros Hne. remember (length s) as n eqn:Hn.
  revert s Hn. induction n as [n IH] using lt_wf_ind. intros s ->.
  destruct s as [|c s]; [constructor|].
  destruct (startswith old (c :: s)) eqn:Hs.
  - apply startswith_drop in Hs. rewrite Hs.
    rewrite replace_from_hit by done. constructor.
    eapply IH; [|reflexivity]. rewrite length_drop.
    destruct old; [done|]. simpl. lia.
  - cbn [replace_from]. rewrite Hs. constructor; [exact Hs|].
    eapply IH; [|reflexivity]. simpl. lia.
Qed.

Lemma str_replace_rewrites (old new s : pystr) :
  old <> [] -> rewrites old new s (str_replace old new s).
Proof.
  intros Hne. destruct old; [done|]. by apply replace_from_rewrites.
Qed.

(** Rewriting a key by itself changes nothing. *)
Lemma rewrites_same (old s out : pystr) : rewrites old old s out -> out = s.
Proof. induction 1; congruence. Qed.

(** Without an occurrence of [old] there is nothing to rewrite. *)
Lemma rewrites_absent (old new s out : pystr) :
  rewrites old new s out -> contains old s = false -> out = s.
Proof.
  induction 1 as [|rest out _ _|c s out Hs _ IH]; intros Hc.
  - reflexivity.
  - pose proof (contains_intro [] old rest) as Hi. simpl in Hi. congruence.
  - simpl in Hc. apply orb_false_iff in Hc as [_ Hc]. by rewrite IH.
Qed.

(** Characters of the output come from the input or from [new]. *)
Lemma rewrites_In (old new s out : pystr) (c : N) :
  rewrites old new s out -> In c out -> In c s \/ In c new.
Proof.
  induction 1 as [|rest out _ IH|d s out _ _ IH]; intros Hin.
  - destruct Hin.
  - apply in_app_iff in Hin as [Hin|Hin]; [by right|].
    destruct (IH Hin); [left; apply in_app_iff|]; auto.
  - destruct Hin as [->|Hin]; [left; left; reflexivity|].
    destruct (IH Hin); [left; right|]; auto.
Qed.

(** ** Occurrences across one [replace] *)

Lemma comparable_of_startswith_app (p x y : pystr) :
  startswith p (x ++ y) = true -> comparable p x = true.
Proof.
  unfold comparable. intros [[_ H] | (_ & H & _)]%startswith_app; rewrite H;
    [reflexivity | apply orb_true_r].
Qed.

Lemma forallb_seq (f : nat -> bool) (a n i : nat) :
  forallb f (seq a n) = true -> a <= i < a + n -> f i = true.
Proof.
  intros Hf Hi. rewrite forallb_forall in Hf. apply Hf, in_seq. lia.
Qed.

Lemma leb_or_negb (n m : nat) (b : bool) :
  (n <=? m) || negb b = true -> b = true -> n <= m.
Proof. intros H ->. rewrite orb_false_r in H. by apply Nat.leb_le. Qed.

Lemma startswith_cons_back (p : pystr) (c : N) (out s : pystr) :
  startswith p (c :: out) = true ->
  (startswith (drop 1 p) out = true -> startswith (drop 1 p) s = true) ->
  startswith p (c :: s) = true.
Proof.
  destruct p as [|d q]; [reflexivity|]. simpl.
  intros [-> Hq]%andb_true_iff Hs. rewrite drop_0 in Hs. by rewrite Hs.
Qed.

Section Transfer.
Variables (old new alpha nu gamma p : pystr).
Hypothesis Hnew : new = alpha ++ nu ++ gamma.
Hypothesis Halpha : startswith alpha old = true.
Hypothesis Hsuffix : no_overlap_suffix alpha new p = true.

(** A suffix of [p] that starts the output also starts the input. *)
Lemma rewrites_prefix_back (s out : pystr) :
  rewrites old new s out ->
  forall i, startswith (drop i p) out = true -> startswith (drop i p) s = true.
Proof.
  induction 1 as [|rest out _ _|c s out _ _ IH]; intros i Hq.
  - exact Hq.
  - destruct (le_lt_dec (length (drop i p)) (length alpha)) as [Hle|Hlt].
    + rewrite Hnew, <- app_assoc in Hq.
      apply startswith_app_short in Hq; [|exact Hle].
      apply startswith_app_l.
      apply startswith_spec in Hq as [r1 ->].
      apply startswith_spec in Halpha as [r2 ->].
      rewrite <- app_assoc. apply startswith_refl_app.
    + exfalso. apply comparable_of_startswith_app in Hq.
      rewrite length_drop in Hlt.
      pose proof (forallb_seq _ 0 (length p) i Hsuffix ltac:(lia)) as Hc.
      pose proof (leb_or_negb _ _ _ Hc Hq). lia.
  - destruct (drop i p) as [|d q] eqn:Hd; [reflexivity|].
    simpl in Hq |- *. apply andb_true_iff in Hq as [-> Hq]. simpl.
    assert (Hq' : q = drop (S i) p).
    { replace (S i) with (i + 1) by lia. by rewrite <- drop_drop, Hd. }
    rewrite Hq' in Hq |- *. by apply IH.
Qed.

Hypothesis Hgamma : exists o, old = o ++ gamma.
Hypothesis Hinfix : no_overlap_infix alpha nu new p = true.

(** [replace] creates no occurrence of [p]. *)
Lemma rewrites_contains_back (s out : pystr) :
  rewrites old new s out -> contains p out = true -> contains p s = true.
Proof.
  induction 1 as [|rest out Hrw IH|c s out _ Hrw IH]; intros Hc.
  - exact Hc.
  - apply contains_drop in Hc as [j Hj].
    destruct (le_lt_dec (length new) j) as [Hge|Hlt].
    { (* the occurrence lies behind [new] *)
      rewrite drop_app_ge in Hj by exact Hge.
      apply contains_app_r, IH, contains_drop. eauto. }
    rewrite drop_app_le in Hj by lia.
    destruct Hgamma as [o Ho].
    destruct (le_lt_dec (j + length p) (length alpha)) as [Hin|Hout].
    { (* the occurrence lies within [alpha] *)
      apply contains_app_l.
      assert (Hpa : startswith p (drop j alpha) = true).
      { rewrite Hnew, drop_app_le in Hj by lia. rewrite <- app_assoc in Hj.
        apply startswith_app_short in Hj; [exact Hj|]. rewrite length_drop. lia. }
      apply startswith_spec in Halpha as [r ->].
      apply contains_app_l, contains_drop. eauto. }
    destruct (le_lt_dec (length alpha + length nu) j) as [Hg|Hcore].
    + (* the occurrence starts within [gamma] *)
      assert (Hdrop : drop j new = drop (j - length alpha - length nu) gamma).
      { rewrite Hnew, drop_app_ge by lia. rewrite drop_app_ge by lia. done. }
      assert (Hog : exists o', old = o' ++ drop j new).
      { exists (o ++ take (j - length alpha - length nu) gamma).
        rewrite Hdrop, <- app_assoc, take_drop. exact Ho. }
      destruct Hog as [o' Ho'].
      apply startswith_app in Hj as [[_ Hj] | (_ & Hj & Hq)].
      * apply contains_app_l. rewrite Ho'. by apply contains_app_r, startswith_contains.
      * apply (rewrites_prefix_back _ _ Hrw) in Hq.
        rewrite Ho', <- app_assoc. apply contains_app_r, startswith_contains.
        rewrite (startswith_drop _ _ Hj). by apply startswith_app_same.
    + (* the occurrence would touch the rewritten core *)
      exfalso. apply comparable_of_startswith_app in Hj.
      destruct j as [|j].
      * pose proof (forallb_seq _ 0 (length p) 0 Hsuffix ltac:(lia)) as Hk.
        pose proof (leb_or_negb _ _ _ Hk Hj). lia.
      * pose proof (forallb_seq _ 1 _ (S j) Hinfix ltac:(lia)) as Hk.
        pose proof (leb_or_negb _ _ _ Hk Hj). lia.
  - apply contains_cons_inv in Hc as [Hc|Hc].
    + apply startswith_contains, (startswith_cons_back _ _ _ _ Hc).
      apply (rewrites_prefix_back _ _ Hrw 1).
    + simpl. rewrite (IH Hc). apply orb_true_r.
Qed.
End Transfer.

Lemma rewrites_kills (old new alpha : pystr) (s out : pystr) :
  old <> [] ->
  startswith alpha old = true ->
  startswith alpha new = true ->
  no_overlap_suffix alpha new old = true ->
  forallb (fun j => negb (comparable old (drop j new))) (seq 0 (length new)) = true ->
  rewrites old new s out -> contains old out = false.
Proof.
  intros Hne Ha Han Hsuf Hb Hrw.
  assert (Hnew : new = alpha ++ drop (length alpha) new ++ []).
  { rewrite app_nil_r. by apply startswith_drop. }
  apply not_true_is_false.
  induction Hrw as [|rest out Hrw IH|c s out Hs Hrw IH]; intros Hc.
  - simpl in Hc. rewrite orb_false_r in Hc. by apply startswith_nil_r in Hc.
  - apply contains_drop in Hc as [j Hj].
    destruct (le_lt_dec (length new) j) as [Hge|Hlt].
    + rewrite drop_app_ge in Hj by exact Hge. apply IH, contains_drop. eauto.
    + rewrite drop_app_le in Hj by lia.
      apply comparable_of_startswith_app in Hj.
      pose proof (forallb_seq _ 0 _ j Hb ltac:(lia)) as Hk. cbv beta in Hk.
      rewrite Hj in Hk. discriminate.
  - apply contains_cons_inv in Hc as [Hc|Hc]; [|by apply IH].
    rewrite (startswith_cons_back _ _ _ _ Hc) in Hs; [discriminate|].
    apply (rewrites_prefix_back old new alpha _ _ old Hnew Ha Hsuf _ _ Hrw 1).
Qed.

Lemma split_of_new (new : pystr) (a g : nat) :
  a + g <= length new ->
  new = take a new ++ take (length new - a - g) (drop a new) ++ drop (length new - g) new.
Proof.
  intros Hag.
  rewrite <- (take_drop a new) at 1. f_equal.
  rewrite <- (take_drop (length new - a - g) (drop a new)) at 1. f_equal.
  rewrite drop_drop. f_equal. lia.
Qed.

Lemma endswith_spec (g s : pystr) : endswith g s = true -> exists o, s = o ++ g.
Proof.
  unfold endswith. intros [_ H%str_eqb_eq]%andb_true_iff.
  exists (take (length s - length g) s).
  rewrite <- (take_drop (length s - length g) s) at 1. by f_equal.
Qed.

Lemma existsb_seq (f : nat -> bool) (a n : nat) :
  existsb f (seq a n) = true -> exists i, f i = true.
Proof. intros (i & _ & Hi)%existsb_exists. eauto. Qed.

(** Soundness of the two checks. *)
Lemma rule_preserves_sound (p old new s : pystr) :
  old <> [] ->
  rule_preserves p (old, new) = true ->
  contains p (str_replace old new s) = true -> contains p s = true.
Proof.
  intros Hne Hr. pose proof (str_replace_rewrites old new s Hne) as Hrw.
  unfold rule_preserves in Hr. cbn [fst snd] in Hr.
  apply orb_true_iff in Hr as [Heq|Hex].
  - apply str_eqb_eq in Heq as <-. by rewrite (rewrites_same _ _ _ Hrw).
  - apply existsb_seq in Hex as [a Hex]. apply existsb_seq in Hex as [g Hok].
    unfold split_ok in Hok.
    apply andb_true_iff in Hok as [Hok Hinf].
    apply andb_true_iff in Hok as [Hok Hsuf].
    apply andb_true_iff in Hok as [Hok Hend].
    apply andb_true_iff in Hok as [Hag Hst].
    apply Nat.leb_le in Hag.
    apply (rewrites_contains_back old new _ _ _ p (split_of_new new a g Hag) Hst Hsuf
             (endswith_spec _ _ Hend) Hinf _ _ Hrw).
Qed.

Lemma rule_kills_sound (old new s : pystr) :
  old <> [] ->
  rule_kills (old, new) = true ->
  contains old (str_replace old new s) = false.
Proof.
  intros Hne Hr. pose proof (str_replace_rewrites old new s Hne) as Hrw.
  unfold rule_kills in Hr. cbn [fst snd] in Hr.
  apply andb_true_iff in Hr as [Hb Hex].
  apply existsb_seq in Hex as [a [Ha Hsuf]%andb_true_iff].
  eapply (rewrites_kills old new (take a new)); eauto.
  rewrite <- (take_drop a new) at 2. apply startswith_refl_app.
Qed.

(** ** The replacement loop *)

Lemma apply_replacements_app (r1 r2 : list (pystr * pystr)) (s : pystr) :
  apply_replacements (r1 ++ r2) s = apply_replacements r2 (apply_replacements r1 s).
Proof. apply fold_left_app. Qed.

Lemma apply_replacements_preserves (p : pystr) (rules : list (pystr * pystr)) (s : pystr) :
  keys_nonempty rules ->
  forallb (rule_preserves p) rules = true ->
  contains p (apply_replacements rules s) = true -> contains p s = true.
Proof.
  intros Hne. revert s. induction Hne as [|[old new] rules Hr Hne IH]; intros s Hp Hc.
  - exact Hc.
  - simpl in Hp. apply andb_true_iff in Hp as [Hp1 Hp2].
    simpl in Hc. apply (IH _ Hp2) in Hc.
    by apply rule_preserves_sound in Hc.
Qed.

Lemma apply_replacements_eliminates (rules : list (pystr * pystr)) (k : nat)
    (r : pystr * pystr) (s : pystr) :
  keys_nonempty rules ->
  nth_error rules k = Some r ->
  key_eliminated rules k = true ->
  contains (fst r) (apply_replacements rules s) = false.
Proof.
  intros Hne Hk He. unfold key_eliminated in He. rewrite Hk in He.
  apply andb_true_iff in He as [Hkill Hpres].
  pose proof (nth_error_split _ _ Hk) as (r1 & r2 & Hrules & Hlen).
  assert (Hdrop : drop (S k) rules = r2).
  { rewrite Hrules, cons_middle, app_assoc.
    apply drop_app_length'. rewrite length_app. simpl. lia. }
  rewrite Hdrop in Hpres. rewrite Hrules in Hne |- *.
  apply Forall_app in Hne as [_ Hne]. apply Forall_cons in Hne as [Hr Hne].
  rewrite apply_replacements_app. simpl.
  apply not_true_is_false. intros Hc.
  apply (apply_replacements_preserves _ _ _ Hne Hpres) in Hc.
  destruct r as [old new]. simpl in *.
  by rewrite rule_kills_sound in Hc.
Qed.

(** ** The two patterns of [ocr.py] never match *)

Lemma re_match_anchored (negate : bool) (ranges : list (N * N)) (c1 c2 : N)
    (pat : list re_item) (pos : nat) (s : pystr) :
  re_match (ReIn negate ranges :: ReLit c1 :: ReLit c2 :: ReAtBeginning :: pat) pos s = None.
Proof.
  destruct s as [|a [|b [|c s]]]; simpl; try reflexivity;
    repeat (match goal with |- context [if ?b then _ else _] => destruct b end;
            simpl; try reflexivity).
Qed.

Lemma re_sub_no_match (pat : list re_item) (repl s : pystr) :
  (forall pos t, re_match pat pos t = None) -> re_sub pat repl s = s.
Proof.
  intros Hno. unfold re_sub. generalize 0 at 1 as pos.
  induction s as [|c s IH]; intros pos; simpl; [reflexivity|].
  by rewrite Hno, IH.
Qed.

Lemma re_findall_no_match (pat : list re_item) (s : pystr) :
  (forall pos t, re_match pat pos t = None) -> re_findall_count pat s = 0.
Proof.
  intros Hno. unfold re_findall_count. generalize 0 at 1 as pos.
  induction s as [|c s IH]; intros pos; simpl; [reflexivity|].
  by rewrite Hno, IH.
Qed.

(** The "remove any non-math characters" step removes nothing. *)
Lemma non_math_sub_id (s : pystr) : re_sub non_math_pattern [] s = s.
Proof. apply re_sub_no_match. intros pos t. apply re_match_anchored. Qed.

Lemma math_chars_count_zero (s : pystr) : re_findall_count math_chars_pattern s = 0.
Proof. apply re_findall_no_match. intros pos t. apply re_match_anchored. Qed.

(** ** Whitespace *)

Lemma re_sub_whitespace_no_space (s : pystr) : no_space (re_sub_whitespace s).
Proof.
  intros c [_ Hc]%filter_In. by apply negb_true_iff in Hc.
Qed.

Lemma re_sub_whitespace_id (s : pystr) : no_space s -> re_sub_whitespace s = s.
Proof.
  unfold re_sub_whitespace. induction s as [|c s IH]; intros Hs; [reflexivity|].
  simpl. rewrite (Hs c) by (left; reflexivity). simpl. f_equal.
  apply IH. intros d Hd. apply Hs. by right.
Qed.

Lemma lstrip_id (s : pystr) : no_space s -> lstrip s = s.
Proof.
  destruct s as [|c s]; [reflexivity|]. intros Hs. simpl.
  by rewrite (Hs c) by (left; reflexivity).
Qed.

Lemma strip_id (s : pystr) : no_space s -> strip s = s.
Proof.
  intros Hs. unfold strip, rstrip. rewrite (lstrip_id s Hs), lstrip_id.
  - apply rev_involutive.
  - intros c Hc. apply Hs. by apply in_rev.
Qed.

Lemma apply_replacements_In (rules : list (pystr * pystr)) (s : pystr) (c : N) :
  keys_nonempty rules ->
  In c (apply_replacements rules s) ->
  In c s \/ exists r, In r rules /\ In c (snd r).
Proof.
  intros Hne. revert s. induction Hne as [|[old new] rules Hr Hne IH]; intros s Hc.
  - by left.
  - simpl in Hc. destruct (IH _ Hc) as [Hin | (r & Hr' & Hin)].
    + destruct (rewrites_In _ _ _ _ c (str_replace_rewrites old new s Hr) Hin) as [?|?].
      * by left.
      * right. exists (old, new). split; [by left | done].
    + right. exists r. split; [by right | done].
Qed.

Lemma replacements_keys_nonempty : keys_nonempty replacements.
Proof. unfold keys_nonempty. repeat constructor; discriminate. Qed.

Lemma replacements_bring_no_space (r : pystr * pystr) :
  In r replacements -> no_space (snd r).
Proof.
  intros Hr.
  assert (Hall : forallb (fun r => forallb (fun c => negb (is_space c)) (snd r)) replacements = true)
    by (vm_compute; reflexivity).
  rewrite forallb_forall in Hall. specialize (Hall r Hr).
  rewrite forallb_forall in Hall. intros c Hc. by apply negb_true_iff, Hall.
Qed.

Lemma apply_replacements_no_space (s : pystr) :
  no_space s -> no_space (apply_replacements replacements s).
Proof.
  intros Hs c Hc.
  apply apply_replacements_In in Hc as [Hc | (r & Hr & Hc)];
    [by apply Hs | by apply (replacements_bring_no_space r) | apply replacements_keys_nonempty].
Qed.

(** The cleaner is whitespace removal followed by the replacement loop: the
    last two steps change nothing. *)
Lemma clean_math_text_eq (text : pystr) :
  _clean_math_text text = apply_replacements replacements (re_sub_whitespace text).
Proof.
  unfold _clean_math_text. rewrite non_math_sub_id.
  apply strip_id, apply_replacements_no_space, re_sub_whitespace_no_space.
Qed.

Lemma clean_math_text_no_space (text : pystr) : no_space (_clean_math_text text).
Proof.
  rewrite clean_math_text_eq.
  apply apply_replacements_no_space, re_sub_whitespace_no_space.
Qed.

(** ** Fixed points of the replacement loop *)

Lemma apply_replacements_fixed (rules : list (pystr * pystr)) (t : pystr) :
  keys_nonempty rules ->
  Forall (fun r => fst r = snd r \/ contains (fst r) t = false) rules ->
  apply_replacements rules t = t.
Proof.
  intros Hne. induction Hne as [|[old new] rules Hr Hne IH]; intros Hall; [reflexivity|].
  apply Forall_cons in Hall as [Hhd Hall]. simpl in *.
  pose proof (str_replace_rewrites old new t Hr) as Hrw.
  assert (Hstep : str_replace old new t = t).
  { destruct Hhd as [<-|Habs];
      [exact (rewrites_same _ _ _ Hrw) | exact (rewrites_absent _ _ _ _ Hrw Habs)]. }
  rewrite Hstep. by apply IH.
Qed.

Lemma settled_rules (rules : list (pystr * pystr)) (exc s : pystr) :
  keys_nonempty rules ->
  forallb (settled rules exc) (seq 0 (length rules)) = true ->
  contains exc (apply_replacements rules s) = false ->
  Forall (fun r => fst r = snd r \/ contains (fst r) (apply_replacements rules s) = false) rules.
Proof.
  intros Hne Hall Hexc. apply List.Forall_forall. intros r Hr.
  apply In_nth_error in Hr as [k Hk].
  assert (Hlt : k < length rules) by (apply nth_error_Some; congruence).
  pose proof (forallb_seq _ 0 _ k Hall ltac:(lia)) as Hs.
  unfold settled in Hs. rewrite Hk in Hs.
  apply orb_true_iff in Hs as [Hs|Hs]; [apply orb_true_iff in Hs as [Hs|Hs]|].
  - left. by apply str_eqb_eq.
  - right. by apply (apply_replacements_eliminates rules k).
  - right. apply str_eqb_eq in Hs. by rewrite Hs.
Qed.

(** ** The first twelve rules as a map on characters *)





(* ===================================================================== *)
(** * The text cleaner *)
(* ===================================================================== *)

Lemma replacements_settled :
  forallb (settled replacements (str "log10")) (seq 0 (length replacements)) = true.
Proof. vm_compute. reflexivity. Qed.

(** A cleaned text without ["log10"] is a fixed point of the cleaner. *)
Lemma clean_math_text_fixed (text : pystr) :
  contains (str "log10") (_clean_math_text text) = false ->
  _clean_math_text (_clean_math_text text) = _clean_math_text text.
Proof.
  intros Hlog.
  rewrite (clean_math_text_eq (_clean_math_text text)).
  rewrite re_sub_whitespace_id by apply clean_math_text_no_space.
  rewrite clean_math_text_eq in Hlog |- *.
  apply apply_replacements_fixed; [apply replacements_keys_nonempty|].
  apply (settled_rules replacements (str "log10"));
    [apply replacements_keys_nonempty | apply replacements_settled | exact Hlog].
Qed.

Lemma clean_math_text_char_gone (k : nat) (c : N) (new text : pystr) :
  nth_error replacements k = Some ([c], new) ->
  key_eliminated replacements k = true ->
  ~ In c (_clean_math_text text).
Proof.
  intros Hk He Hin. apply contains_char in Hin.
  rewrite clean_math_text_eq in Hin.
  pose proof (apply_replacements_eliminates replacements k _
                (re_sub_whitespace text) replacements_keys_nonempty Hk He) as Hc.
  cbn [fst] in Hc. congruence.
Qed.


(** C9, counterexample.  ["log1010"] is cleaned to ["log10"], which is
    cleaned to ["log"]. *)
Lemma clean_math_text_not_idempotent :
  _clean_math_text (str "log1010") = str "log10" /\
  _clean_math_text (_clean_math_text (str "log1010")) = str "log" /\
  _clean_math_text (_clean_math_text (str "log1010")) <> _clean_math_text (str "log1010").
Proof. vm_compute. repeat split; discriminate. Qed.

(** C9, amended.  Cleaning is idempotent on every text whose cleaned form
    does not contain ["log10"]. *)
Theorem clean_math_text_idempotent_without_log10 (text : pystr) :
  contains (str "log10") (_clean_math_text text) = false ->
  _clean_math_text (_clean_math_text text) = _clean_math_text text.
Proof. apply clean_math_text_fixed. Qed.

Lemma clean_math_text_idempotent_without_log10_witness :
  contains (str "log10") (_clean_math_text (str " 2x + ln [3] ")) = false /\
  _clean_math_text (_clean_math_text (str " 2x + ln [3] ")) =
  _clean_math_text (str " 2x + ln [3] ").
Proof.
  split; [vm_compute; reflexivity|].
  apply (clean_math_text_idempotent_without_log10 (str " 2x + ln [3] ")).
  vm_compute. reflexivity.
Defined.

(* ===================================================================== *)
(** * The admission controller *)
(* ===================================================================== *)

Lemma str_eqb_refl (a : pystr) : str_eqb a a = true.
Proof. by apply str_eqb_eq. Qed.

Lemma str_eqb_neq (a b : pystr) : a <> b -> str_eqb a b = false.
Proof. intros Hne. apply not_true_is_false. by intros ?%str_eqb_eq. Qed.

Lemma purge_app (theta : Q) (l1 l2 : list Q) :
  purge theta (l1 ++ l2) = purge theta l1 ++ purge theta l2.
Proof. apply List.filter_app. Qed.

Lemma purge_length (theta : Q) (l : list Q) : length (purge theta l) <= length l.
Proof. apply List.filter_length_le. Qed.

(** Purging at an older threshold first does not change a purge. *)
Lemma purge_purge (theta theta' : Q) (l : list Q) :
  (theta <= theta')%Q -> purge theta' (purge theta l) = purge theta' l.
Proof.
  intros Hle. unfold purge. induction l as [|t l IH]; [reflexivity|]. simpl.
  destruct (Qle_bool theta t) eqn:Ht; simpl; rewrite IH; [reflexivity|].
  destruct (Qle_bool theta' t) eqn:Ht'; [|reflexivity].
  apply Qle_bool_iff in Ht'. assert (theta <= t)%Q by (eapply Qle_trans; eauto).
  apply Qle_bool_iff in H. congruence.
Qed.

Lemma filter_length_mono {A} (P R : A -> bool) (l : list A) :
  (forall a, P a = true -> R a = true) ->
  length (List.filter P l) <= length (List.filter R l).
Proof.
  intros HPR. induction l as [|a l IH]; [reflexivity|]. simpl.
  destruct (P a) eqn:HP.
  - rewrite (HPR a HP). simpl. lia.
  - destruct (R a); simpl; lia.
Qed.

Lemma bucket_of_insert (B : gmap (list N) (list Q)) (user : pystr) (b : list Q) :
  bucket_of (<[user := b]> B) user = b.
Proof. unfold bucket_of. by rewrite lookup_insert_eq. Qed.

Lemma bucket_of_insert_ne (B : gmap (list N) (list Q)) (user other : pystr) (b : list Q) :
  user <> other -> bucket_of (<[user := b]> B) other = bucket_of B other.
Proof. intros Hne. unfold bucket_of. by rewrite lookup_insert_ne. Qed.

(** The two outcomes of [_rate_limit]. *)
Lemma rate_limit_cases (B : gmap (list N) (list Q)) (user : pystr) (now : Q) :
  let bucket := purge (now - _WINDOW_SECONDS) (bucket_of B user) in
  (_MAX_CALLS <= length bucket /\
   _rate_limit B user now =
     (<[user := bucket]> B,
      Abort (HTTPException 429 (str "Rate limit exceeded. Please slow down.")))) \/
  (length bucket < _MAX_CALLS /\
   _rate_limit B user now = (<[user := bucket ++ [now]]> B, Respond tt)).
Proof.
  intros bucket. unfold _rate_limit. fold bucket.
  destruct (Nat.leb_spec _MAX_CALLS (length bucket)); [left | right]; done.
Qed.

Lemma admitted_times_snoc (user other : pystr) (log : call_log) (t : Q) (a : bool) :
  admitted_times user (log ++ [(other, t, a)]) =
  admitted_times user log ++ (if str_eqb other user && a then [t] else []).
Proof.
  unfold admitted_times. rewrite List.filter_app, List.map_app. simpl.
  by destruct (str_eqb other user && a).
Qed.

Lemma log_times_snoc (log : call_log) (e : list N * Q * bool) :
  log_times (log ++ [e]) = log_times log ++ [snd (fst e)].
Proof. unfold log_times. by rewrite List.map_app. Qed.

Lemma rate_limit_invariant_init : rate_limit_invariant (∅, []).
Proof.
  split; intros; simpl; unfold bucket_of; rewrite lookup_empty; simpl;
    [reflexivity | unfold _MAX_CALLS; lia].
Qed.

Lemma rate_limit_invariant_step (st : gmap (list N) (list Q) * call_log) (call : list N * Q) :
  rate_limit_invariant st -> rate_limit_invariant (rate_limit_step st call).
Proof.
  destruct st as [B log], call as [user now]. intros [Hpurge Hlen].
  unfold rate_limit_step. cbn [fst snd] in *.
  set (bucket := purge (now - _WINDOW_SECONDS) (bucket_of B user)).
  assert (Hb : length bucket <= _MAX_CALLS).
  { etrans; [apply purge_length | apply Hlen]. }
  assert (Hkeep : forall theta,
             (forall t, In t (log_times log ++ [now]) -> (t - _WINDOW_SECONDS <= theta)%Q) ->
             purge theta (admitted_times user log) = purge theta bucket).
  { intros theta Hth. unfold bucket. rewrite purge_purge.
    - apply Hpurge. intros t Ht. apply Hth, in_app_iff. by left.
    - apply Hth, in_app_iff. right. by left. }
  destruct (rate_limit_cases B user now) as [[Hfull ->] | [Hfree ->]];
    fold bucket in Hfull || fold bucket in Hfree;
    unfold rate_limit_invariant; cbn [fst snd admitted].
  - split.
    + intros other theta Hth. rewrite log_times_snoc in Hth. cbn [fst snd] in Hth.
      rewrite admitted_times_snoc, andb_false_r, app_nil_r.
      destruct (decide (user = other)) as [<-|Hne].
      * rewrite bucket_of_insert. by apply Hkeep.
      * rewrite bucket_of_insert_ne by done. apply Hpurge.
        intros t Ht. apply Hth, in_app_iff. by left.
    + intros other. destruct (decide (user = other)) as [<-|Hne].
      * by rewrite bucket_of_insert.
      * by rewrite bucket_of_insert_ne.
  - split.
    + intros other theta Hth. rewrite log_times_snoc in Hth. cbn [fst snd] in Hth.
      rewrite admitted_times_snoc, andb_true_r.
      destruct (decide (user = other)) as [<-|Hne].
      * rewrite bucket_of_insert, str_eqb_refl, !purge_app. f_equal. by apply Hkeep.
      * rewrite bucket_of_insert_ne, str_eqb_neq, app_nil_r by done. apply Hpurge.
        intros t Ht. apply Hth, in_app_iff. by left.
    + intros other. destruct (decide (user = other)) as [<-|Hne].
      * rewrite bucket_of_insert, length_app. cbn [length]. unfold bucket in *. lia.
      * by rewrite bucket_of_insert_ne.
Qed.

Lemma run_calls_snoc (calls : list (list N * Q)) (call : list N * Q) :
  run_calls (calls ++ [call]) = rate_limit_step (run_calls calls) call.
Proof. unfold run_calls. by rewrite fold_left_app. Qed.

Lemma run_calls_invariant (calls : list (list N * Q)) :
  rate_limit_invariant (run_calls calls).
Proof.
  induction calls as [|call calls IH] using rev_ind.
  - apply rate_limit_invariant_init.
  - rewrite run_calls_snoc. by apply rate_limit_invariant_step.
Qed.

Lemma run_calls_log_times (calls : list (list N * Q)) :
  log_times (snd (run_calls calls)) = List.map snd calls.
Proof.
  induction calls as [|call calls IH] using rev_ind; [reflexivity|].
  rewrite run_calls_snoc. unfold rate_limit_step.
  destruct (_rate_limit _ _ _) as [B' r]. cbn [snd].
  by rewrite log_times_snoc, List.map_app, IH.
Qed.

(** At a call that comes after all the calls of the log, the purged bucket is
    the list of the caller's admitted calls that are still in the window. *)
Lemma purged_bucket_is_recent (calls : list (list N * Q)) (user : pystr) (now : Q) :
  (forall t, In t (List.map snd calls) -> (t <= now)%Q) ->
  purge (now - _WINDOW_SECONDS) (bucket_of (fst (run_calls calls)) user) =
  purge (now - _WINDOW_SECONDS) (admitted_times user (snd (run_calls calls))).
Proof.
  intros Hnow. destruct (run_calls_invariant calls) as [Hpurge _].
  symmetry. apply Hpurge. intros t Ht. rewrite run_calls_log_times in Ht.
  specialize (Hnow t Ht). unfold _WINDOW_SECONDS. lra.
Qed.

Lemma chronological_snoc (calls : list (list N * Q)) (call : list N * Q) :
  chronological (calls ++ [call]) ->
  chronological calls /\ forall t, In t (List.map snd calls) -> (t <= snd call)%Q.
Proof.
  unfold chronological. rewrite List.map_app. simpl.
  intros (Hle & Hs & _)%StronglySorted_app. split; [exact Hs|].
  intros t Ht. apply Hle; [by apply list_elem_of_In | by left].
Qed.

Lemma window_count_bound (calls : list (list N * Q)) :
  chronological calls ->
  forall user tau,
    length (List.filter (in_window tau) (admitted_times user (snd (run_calls calls))))
    <= _MAX_CALLS.
Proof.
  induction calls as [|[caller now] calls IH] using rev_ind; intros Hchron user tau.
  - unfold _MAX_CALLS. simpl. lia.
  - apply chronological_snoc in Hchron as [Hchron Hnow]. cbn [snd] in Hnow.
    specialize (IH Hchron).
    pose proof (purged_bucket_is_recent calls caller now Hnow) as Hrecent.
    rewrite run_calls_snoc. unfold rate_limit_step. cbn [fst snd].
    destruct (rate_limit_cases (fst (run_calls calls)) caller now) as [[_ ->] | [Hfree ->]];
      cbn [snd admitted]; rewrite admitted_times_snoc.
    + rewrite andb_false_r, app_nil_r. apply IH.
    + rewrite andb_true_r. destruct (str_eqb caller user) eqn:Hu;
        [|rewrite app_nil_r; apply IH].
      apply str_eqb_eq in Hu as ->.
      rewrite List.filter_app, length_app. simpl.
      destruct (in_window tau now) eqn:Hin; [|simpl; specialize (IH user tau); lia].
      simpl. rewrite Hrecent in Hfree.
      enough (length (List.filter (in_window tau) (admitted_times user (snd (run_calls calls))))
              <= length (purge (now - _WINDOW_SECONDS)
                               (admitted_times user (snd (run_calls calls))))) by lia.
      apply filter_length_mono. intros t Ht.
      unfold in_window in Hin, Ht.
      apply andb_true_iff in Hin as [_ Hin%Qle_bool_iff].
      apply andb_true_iff in Ht as [Ht%Qle_bool_iff _].
      apply Qle_bool_iff. unfold _WINDOW_SECONDS in *. lra.
Qed.

(** C4.  From the empty dict, along calls made at non-decreasing times:
    no window of [_WINDOW_SECONDS] = 60 seconds (both ends included) holds
    more than [_MAX_CALLS] = 30 admitted calls of one caller; after each call
    no caller's timestamp list is longer than 30; and a call made when 30
    admitted calls of the caller are no older than 60 seconds is denied. *)
Theorem rate_limit_sliding_window (calls : list (list N * Q)) :
  chronological calls ->
  _MAX_CALLS = 30 /\ (_WINDOW_SECONDS == 60)%Q /\
  (forall user tau,
      length (List.filter (in_window tau) (admitted_times user (snd (run_calls calls))))
      <= _MAX_CALLS) /\
  (forall user, length (bucket_of (fst (run_calls calls)) user) <= _MAX_CALLS) /\
  (forall user now,
      (forall t, In t (List.map snd calls) -> (t <= now)%Q) ->
      _MAX_CALLS <= length (purge (now - _WINDOW_SECONDS)
                                  (admitted_times user (snd (run_calls calls)))) ->
      admitted (snd (_rate_limit (fst (run_calls calls)) user now)) = false).
Proof.
  intros Hchron. split; [reflexivity|]. split; [reflexivity|].
  split; [by apply window_count_bound|].
  split; [apply (run_calls_invariant calls)|].
  intros user now Hnow Hfull.
  rewrite <- purged_bucket_is_recent in Hfull by exact Hnow.
  destruct (rate_limit_cases (fst (run_calls calls)) user now) as [[_ ->] | [Hfree _]];
    [reflexivity | lia].
Qed.

Lemma rate_limit_sliding_window_witness :
  let calls := [(str "ada", 0%Q); (str "ada", 1%Q); (str "bob", 1%Q); (str "ada", 61%Q)] in
  chronological calls /\
  (forall user tau,
      length (List.filter (in_window tau) (admitted_times user (snd (run_calls calls))))
      <= _MAX_CALLS).
Proof.
  intros calls.
  assert (Hc : chronological calls).
  { unfold chronological, calls. simpl. repeat constructor; by apply Qle_bool_iff. }
  split; [exact Hc|]. apply (rate_limit_sliding_window calls Hc).
Defined.

(** Thirty calls of one caller within a second are admitted, the next one
    is denied, and a call sixty-one seconds later is admitted again. *)
Lemma rate_limit_thirty_then_denied :
  let calls := List.map (fun i => (str "ada", inject_Z (Z.of_nat i) / 100)%Q) (seq 0 31)
               ++ [(str "ada", 61%Q)] in
  List.map snd (snd (run_calls calls)) = repeat true 30 ++ [false; true].
Proof. vm_compute. reflexivity. Qed.

(** C8.  A denied call leaves in the caller's list exactly the entries of the
    old list that are still in the window: the time of the denied call is not
    appended, and the lists of the other callers are untouched. *)
Theorem rate_limit_denial_appends_nothing (B : gmap (list N) (list Q))
    (user : pystr) (now : Q) (e : http_exception) :
  snd (_rate_limit B user now) = Abort e ->
  bucket_of (fst (_rate_limit B user now)) user =
    purge (now - _WINDOW_SECONDS) (bucket_of B user) /\
  (forall other, other <> user ->
     fst (_rate_limit B user now) !! other = B !! other) /\
  e = HTTPException 429 (str "Rate limit exceeded. Please slow down.").
Proof.
  intros Hdenied.
  destruct (rate_limit_cases B user now) as [[_ Heq] | [_ Heq]];
    rewrite Heq in Hdenied |- *; cbn [fst snd] in *; [|discriminate].
  split; [apply bucket_of_insert|]. split.
  - intros other Hne. by rewrite lookup_insert_ne.
  - congruence.
Qed.

Lemma rate_limit_denial_appends_nothing_witness :
  let B : gmap (list N) (list Q) := {[ str "ada" := repeat 5%Q 30 ++ [70%Q] ]} in
  bucket_of (fst (_rate_limit B (str "ada") 65%Q)) (str "ada") = repeat 5%Q 30 ++ [70%Q].
Proof.
  intros B.
  destruct (rate_limit_denial_appends_nothing B (str "ada") 65%Q
              (HTTPException 429 (str "Rate limit exceeded. Please slow down.")))
    as [Hb _]; [vm_compute; reflexivity|].
  rewrite Hb. vm_compute. reflexivity.
Defined.

(* ===================================================================== *)
(** * The solver *)
(* ===================================================================== *)

Lemma py_map_Return {A B} (f : A -> py B) (l : list A) (bs : list B) :
  py_map f l = Return bs ->
  length bs = length l /\
  forall i a, nth_error l i = Some a ->
    exists b, nth_error bs i = Some b /\ f a = Return b.
Proof.
  revert bs. induction l as [|a l IH]; intros bs Hm; simpl in Hm.
  - injection Hm as <-. split; [reflexivity|]. intros [|i] a Ha; discriminate.
  - destruct (f a) as [b|e] eqn:Hfa; simpl in Hm; [|discriminate].
    destruct (py_map f l) as [bs'|e] eqn:Hl; simpl in Hm; [|discriminate].
    injection Hm as <-. destruct (IH bs' eq_refl) as [Hlen Hnth].
    split; [simpl; by rewrite Hlen|].
    intros [|i] a' Ha'; simpl in *.
    + injection Ha' as <-. eauto.
    + by apply Hnth.
Qed.

Lemma py_map_Raise {A B} (f : A -> py B) (l : list A) (a : A) (e : exn) :
  In a l -> f a = Raise e -> exists e', py_map f l = Raise e'.
Proof.
  induction l as [|a' l IH]; intros Hin Hfa; [destruct Hin|].
  simpl. destruct Hin as [->|Hin].
  - rewrite Hfa. simpl. eauto.
  - destruct (f a') as [b|e1]; simpl; [|eauto].
    destruct (IH Hin Hfa) as [e' ->]. simpl. eauto.
Qed.

Section SolverFacts.
Context `{Algebra} `{PySet}.

(** [solve_generic] never raises: its handler catches every exception. *)
Lemma solve_generic_returns (text : pystr) :
  exists r, solve_generic text = Return r.
Proof. unfold solve_generic. destruct (solve_generic_body text); eauto. Qed.

Lemma solve_generic_of_Raise (text : pystr) (e : exn) :
  solve_generic_body text = Raise e ->
  solve_generic text =
    Return (str "Error: " ++ exn_msg e, str "Failed to solve: " ++ text).
Proof. unfold solve_generic. by intros ->. Qed.

Lemma first_or_x_spec (free : gset (list N)) :
  (free = ∅ -> first_or_x (set_to_list free) = str "x") /\
  (free <> ∅ -> first_or_x (set_to_list free) ∈ free).
Proof.
  destruct (set_to_list free) as [|v vs] eqn:Hl; simpl; split.
  - reflexivity.
  - intros Hne. exfalso. apply Hne. apply set_eq. intros x.
    rewrite <- set_to_list_elements, Hl. set_solver.
  - intros ->. assert (Hin : In v (set_to_list ∅)) by (rewrite Hl; by left).
    apply set_to_list_elements in Hin. set_solver.
  - intros _. apply set_to_list_elements. rewrite Hl. by left.
Qed.

Lemma sample_y_None (v : value) :
  sample_y v = Return None <-> Float_truth v = Return false.
Proof.
  unfold sample_y. destruct (Float_truth v) as [[|]|e]; simpl.
  - destruct (float_of v); simpl; split; discriminate.
  - split; reflexivity.
  - split; discriminate.
Qed.
End SolverFacts.

(** C3, the code at the text ["x+1=2"].  The text holds no [;] and no [,], so
    it is handed whole to [sympify]; when that raises, as SymPy does on a
    single [=], the answer is the error pair and not a solution.  The branch
    for simultaneous equations splits each part at [=] before parsing. *)
Theorem single_equation_handed_whole_to_sympify `{Algebra} `{PySet} (e : exn) :
  sympify (str "x+1=2") = Raise e ->
  is_system (str "x+1=2") = false /\
  solve_generic (str "x+1=2") =
    Return (str "Error: " ++ exn_msg e, str "Failed to solve: x+1=2") /\
  parse_part (str "x+1=2") =
    (let* lhs := sympify (str "x+1") in let* rhs := sympify (str "2") in Eq lhs rhs).
Proof.
  intros Hraise. split; [reflexivity|]. split; [|reflexivity].
  apply (solve_generic_of_Raise (str "x+1=2") e).
  unfold solve_generic_body.
  replace (is_system (str "x+1=2")) with false by reflexivity.
  by rewrite Hraise.
Qed.

Lemma single_equation_handed_whole_to_sympify_witness :
  @solve_generic demo_algebra demo_pyset (str "x+1=2") =
    Return (str "Error: could not parse x+1=2", str "Failed to solve: x+1=2").
Proof.
  destruct (@single_equation_handed_whole_to_sympify demo_algebra demo_pyset
              (Exception (str "could not parse x+1=2")) eq_refl) as (_ & Hs & _).
  exact Hs.
Defined.

(** C5, counterexample.  In ["Eq(a+b,[2][0])"] the symbol discovered first,
    reading left to right, is [a]; with a set that yields [b] before [a] the
    equation is solved for [b]. *)
Lemma equation_not_solved_for_leftmost_symbol :
  is_system (str "Eq(a+b,[2][0])") = false /\
  leftmost_symbol (str "Eq(a+b,[2][0])") [str "a"; str "b"] = Some (3, str "a") /\
  @solve_generic demo_algebra demo_pyset (str "Eq(a+b,[2][0])") =
    Return (str "b", str "Solved equation for b: <expr> -> b").
Proof. vm_compute. repeat split. Qed.

(** C5, amended.  An equation is solved for the first element in the
    iteration order of its set of free symbols: one of its free symbols,
    whatever its place in the text; with no free symbol, for [x]. *)
Theorem equation_solved_for_first_in_set_order `{Algebra} `{PySet}
    (text : pystr) (e : expr) (free : gset (list N)) :
  is_system text = false ->
  sympify text = Return e ->
  is_Equality e = true ->
  free_symbols e = Return free ->
  solve_generic_body text = solve_equation_for e (first_or_x (set_to_list free)) /\
  (free = ∅ -> first_or_x (set_to_list free) = str "x") /\
  (free <> ∅ -> first_or_x (set_to_list free) ∈ free).
Proof.
  intros Hsys Hparse Heq Hfree. split; [|apply first_or_x_spec].
  unfold solve_generic_body. rewrite Hsys, Hparse. simpl. by rewrite Heq, Hfree.
Qed.

Lemma equation_solved_for_first_in_set_order_witness :
  @solve_generic_body demo_algebra demo_pyset (str "Eq(a+b,[2][0])") =
  @solve_equation_for demo_algebra (DemoExpr true [str "a"; str "b"] (fun _ => NaN))
    (first_or_x (@set_to_list demo_pyset {[ str "a"; str "b" ]})).
Proof.
  assert (Hfree : @free_symbols demo_algebra (DemoExpr true [str "a"; str "b"] (fun _ => NaN))
                  = Return {[ str "a"; str "b" ]}).
  { vm_compute. reflexivity. }
  exact (proj1 (@equation_solved_for_first_in_set_order demo_algebra demo_pyset
                  (str "Eq(a+b,[2][0])") (DemoExpr true [str "a"; str "b"] (fun _ => NaN))
                  {[ str "a"; str "b" ]} eq_refl eq_refl eq_refl Hfree)).
Defined.

(** ** Graph sampling *)

Lemma linspace_length (start stop : Q) (num : nat) :
  length (linspace start stop num) = num.
Proof. unfold linspace. by rewrite length_map, length_seq. Qed.

(** C6, the code.  When parsing, [lambdify], the call and the iteration
    succeed with values [vs], the sample has 400 abscissae and one ordinate
    per value; an ordinate is null exactly when [sp.Float] of the value is
    false, and if [sp.Float] raises on one value no sample is returned. *)
Theorem graph_null_exactly_when_Float_false `{Algebra}
    (text : pystr) (e : expr) (f : func) (ys : ndarray) (vs : list value) :
  sympify text = Return e ->
  lambdify (str "x") e = Return f ->
  call_func f (linspace (-10) 10 400) = Return ys ->
  iterate ys = Return vs ->
  (forall g, build_graph_data text (str "x") = Return g ->
     graph_x g = linspace (-10) 10 400 /\
     length (graph_x g) = 400 /\
     length (graph_y g) = length vs /\
     forall i v, nth_error vs i = Some v ->
       (nth_error (graph_y g) i = Some None <-> Float_truth v = Return false)) /\
  (forall v e', In v vs -> Float_truth v = Raise e' ->
     exists e'', build_graph_data text (str "x") = Raise e'').
Proof.
  intros Hparse Hlam Hcall Hiter.
  assert (Hbuild : build_graph_data text (str "x") =
            (let* y := py_map sample_y vs in
             Return {| graph_x := linspace (-10) 10 400; graph_y := y;
                       graph_expression := text |})).
  { unfold build_graph_data. rewrite Hparse. simpl. rewrite Hlam. simpl.
    rewrite Hcall. simpl. by rewrite Hiter. }
  split.
  - intros g Hg. rewrite Hbuild in Hg.
    destruct (py_map sample_y vs) as [y|e0] eqn:Hy; simpl in Hg; [|discriminate].
    injection Hg as <-. cbn [graph_x graph_y].
    destruct (py_map_Return _ _ _ Hy) as [Hlen Hnth].
    split; [reflexivity|]. split; [apply linspace_length|]. split; [exact Hlen|].
    intros i v Hv. destruct (Hnth i v Hv) as (b & Hb & Hs). split.
    + intros Hnone. rewrite Hb in Hnone. injection Hnone as ->. by apply sample_y_None.
    + intros Hfalse. apply sample_y_None in Hfalse. rewrite Hfalse in Hs.
      injection Hs as <-. exact Hb.
  - intros v e' Hin Hraise. rewrite Hbuild.
    assert (Hs : sample_y v = Raise e') by (unfold sample_y; by rewrite Hraise).
    destruct (py_map_Raise _ _ _ _ Hin Hs) as [e'' ->]. simpl. eauto.
Qed.

Lemma graph_null_exactly_when_Float_false_witness :
  exists g, @build_graph_data demo_algebra (str "x^2") (str "x") = Return g /\
            length (graph_x g) = 400 /\
            forallb (fun y => match y with Some _ => true | None => false end) (graph_y g) = true.
Proof.
  destruct (@graph_null_exactly_when_Float_false demo_algebra (str "x^2")
              (DemoExpr false [str "x"] (fun x => Finite (x * x)))
              (fun x => Finite (x * x))
              (List.map (fun x => Finite (x * x)) (linspace (-10) 10 400))
              (List.map (fun x => Finite (x * x)) (linspace (-10) 10 400))
              eq_refl eq_refl eq_refl eq_refl) as [Hg _].
  assert (Hb : exists g, @build_graph_data demo_algebra (str "x^2") (str "x") = Return g
                         /\ forallb (fun y => match y with Some _ => true | None => false end) (graph_y g) = true).
  { eexists. split; vm_compute; reflexivity. }
  destruct Hb as (g & Hb & Hy). exists g. split; [exact Hb|]. split; [|exact Hy].
  apply (Hg g Hb).
Defined.

(** With the stand-in engine, whose [sp.Float] refuses a value that is not
    finite: the pole of [1/(x+10)] at the first abscissa drops the whole
    sample. *)
Lemma graph_pole_drops_sample :
  @build_graph_data demo_algebra (str "1/(x+10)") (str "x") =
    Raise (Exception (str "cannot convert to integer ratio")).
Proof. vm_compute. reflexivity. Qed.

(* ===================================================================== *)
(** * The route *)
(* ===================================================================== *)

Section RouteFacts.
Context `{OcrEngine} `{Algebra} `{PySet}.

(** The route behind an admitted call with a non-empty payload whose
    recognition gave the cleaned text [latex]. *)
Lemma solve_equation_recognized (B B' : gmap (list N) (list Q)) (user : pystr) (now : Q)
    (image_base64 latex : pystr) (conf : float) :
  _rate_limit B user now = (B', Respond tt) ->
  image_base64 <> [] ->
  extract_math_from_image image_base64 = (latex, conf) ->
  latex <> [] ->
  solve_equation B user now image_base64 =
  (B',
   if existsb (fun bad => contains bad latex) forbidden
   then Abort (HTTPException 400 (str "Invalid expression content"))
   else match solve_generic latex with
        | Raise exc =>
            Abort (HTTPException 422 (str "Could not solve expression: " ++ exn_msg exc))
        | Return (solution_latex, steps_) =>
            Respond {| expression := latex;
                       solution_ := solution_latex;
                       steps := steps_;
                       graph_data_ := match build_graph_data latex (str "x") with
                                      | Return g => Some g
                                      | Raise _ => None
                                      end;
                       confidence := conf |}
        end).
Proof.
  intros Hrl Himg Hext Hlatex. unfold solve_equation. rewrite Hrl.
  destruct image_base64 as [|c img]; [done|]. rewrite Hext.
  destruct latex as [|d latex]; [done|]. reflexivity.
Qed.

(** The route behind an admitted call with a non-empty payload when
    recognition gave nothing. *)
Lemma solve_equation_unread (B B' : gmap (list N) (list Q)) (user : pystr) (now : Q)
    (image_base64 : pystr) (conf : float) :
  _rate_limit B user now = (B', Respond tt) ->
  image_base64 <> [] ->
  extract_math_from_image image_base64 = ([], conf) ->
  solve_equation B user now image_base64 =
  (B', Abort (HTTPException 422 (str "Unable to read equation"))).
Proof.
  intros Hrl Himg Hext. unfold solve_equation. rewrite Hrl.
  destruct image_base64 as [|c img]; [done|]. by rewrite Hext.
Qed.

Lemma extract_of_body_Return (image_base64 latex : pystr) (conf : float) :
  extract_math_body image_base64 = Return (latex, conf) ->
  extract_math_from_image image_base64 = (latex, conf).
Proof. unfold extract_math_from_image. by intros ->. Qed.

Lemma extract_of_body_Raise (image_base64 : pystr) (e : exn) :
  extract_math_body image_base64 = Raise e ->
  extract_math_from_image image_base64 = ([], float_0_0).
Proof. unfold extract_math_from_image. by intros ->. Qed.
End RouteFacts.

Lemma forbidden_tokens_nonempty (bad : pystr) : In bad forbidden -> bad <> [].
Proof. intros Hin ->. simpl in Hin. by repeat destruct Hin as [?|Hin]. Qed.

(** C1, counterexample.  The recognized text ["pimport"] contains the
    forbidden token ["import"]; the cleaner writes its ["pi"] as the letter
    pi, so the cleaned text is that letter followed by ["mport"], which
    contains no forbidden token: the request passes the check and is
    answered with the solver's output for the cleaned text. *)
Lemma recognized_forbidden_token_not_rejected :
  In (str "import") forbidden /\
  contains (str "import") (str "pimport") = true /\
  _clean_math_text (str "pimport") = 960%N :: str "mport" /\
  existsb (fun bad => contains bad (_clean_math_text (str "pimport"))) forbidden = false /\
  match snd (@solve_equation (reading_engine (str "pimport")) demo_algebra demo_pyset
               ∅ (str "ada") 0 (str "AAAA")) with
  | Respond r => expression r = 960%N :: str "mport"
  | Abort _ => False
  end.
Proof.
  split; [right; left; reflexivity|]. vm_compute. repeat split.
Qed.

(** C1, amended.  When the cleaned form of the recognized text contains a
    forbidden token, the admitted request is refused with status 400,
    whatever the solver is. *)
Theorem forbidden_token_in_cleaned_text_rejected `{OcrEngine} `{Algebra} `{PySet}
    (B B' : gmap (list N) (list Q)) (user : pystr) (now : Q)
    (image_base64 raw bad : pystr) (conf : float) :
  _rate_limit B user now = (B', Respond tt) ->
  image_base64 <> [] ->
  extract_math_body image_base64 = Return (_clean_math_text raw, conf) ->
  In bad forbidden ->
  contains bad (_clean_math_text raw) = true ->
  solve_equation B user now image_base64 =
    (B', Abort (HTTPException 400 (str "Invalid expression content"))).
Proof.
  intros Hrl Himg Hext Hbad Hin.
  assert (Hne : _clean_math_text raw <> []).
  { intros Hnil. rewrite Hnil in Hin. simpl in Hin. rewrite orb_false_r in Hin.
    apply startswith_nil_r in Hin. by apply (forbidden_tokens_nonempty bad). }
  rewrite (solve_equation_recognized B B' user now image_base64 _ conf Hrl Himg
             (extract_of_body_Return _ _ _ Hext) Hne).
  assert (Hex : existsb (fun bad => contains bad (_clean_math_text raw)) forbidden = true).
  { apply existsb_exists. eauto. }
  by rewrite Hex.
Qed.

Lemma forbidden_token_in_cleaned_text_rejected_witness :
  snd (@solve_equation (reading_engine (str " im port os ")) demo_algebra demo_pyset
         ∅ (str "ada") 0 (str "AAAA")) =
  Abort (HTTPException 400 (str "Invalid expression content")).
Proof.
  rewrite (@forbidden_token_in_cleaned_text_rejected
             (reading_engine (str " im port os ")) demo_algebra demo_pyset
             ∅ (<[str "ada" := [0%Q]]> ∅) (str "ada") 0 (str "AAAA")
             (str " im port os ") (str "import")
             (@_calculate_confidence (str " im port os ") (_clean_math_text (str " im port os ")))).
  - reflexivity.
  - vm_compute. reflexivity.
  - discriminate.
  - reflexivity.
  - right; left; reflexivity.
  - vm_compute. reflexivity.
Defined.

(** C2, the code.  [solve_generic] returns in every case, so the handler of
    the route that answers 422 for a failed solve never runs; when the
    algebra engine raises [e], the admitted request is answered as a success
    whose solution is the text ["Error: " + str(e)]. *)
Theorem failed_solve_answered_as_success `{OcrEngine} `{Algebra} `{PySet}
    (B B' : gmap (list N) (list Q)) (user : pystr) (now : Q)
    (image_base64 latex : pystr) (conf : float) (e : exn) :
  _rate_limit B user now = (B', Respond tt) ->
  image_base64 <> [] ->
  extract_math_from_image image_base64 = (latex, conf) ->
  latex <> [] ->
  existsb (fun bad => contains bad latex) forbidden = false ->
  solve_generic_body latex = Raise e ->
  solve_equation B user now image_base64 =
    (B', Respond {| expression := latex;
                    solution_ := str "Error: " ++ exn_msg e;
                    steps := str "Failed to solve: " ++ latex;
                    graph_data_ := match build_graph_data latex (str "x") with
                                   | Return g => Some g
                                   | Raise _ => None
                                   end;
                    confidence := conf |}).
Proof.
  intros Hrl Himg Hext Hlatex Hok Hraise.
  rewrite (solve_equation_recognized B B' user now image_base64 latex conf Hrl Himg Hext Hlatex).
  by rewrite Hok, (solve_generic_of_Raise latex e Hraise).
Qed.

Lemma failed_solve_answered_as_success_witness :
  match snd (@solve_equation (reading_engine (str "2+")) demo_algebra demo_pyset
               ∅ (str "ada") 0 (str "AAAA")) with
  | Respond r => expression r = str "2+" /\
                 solution_ r = str "Error: could not parse 2+" /\
                 steps r = str "Failed to solve: 2+"
  | Abort _ => False
  end.
Proof.
  rewrite (@failed_solve_answered_as_success
             (reading_engine (str "2+")) demo_algebra demo_pyset
             ∅ (<[str "ada" := [0%Q]]> ∅) (str "ada") 0 (str "AAAA") (str "2+")
             (@_calculate_confidence (str "2+") (str "2+"))
             (Exception (str "could not parse 2+"))).
  - cbn [snd expression solution_ steps]. repeat split.
  - vm_compute. reflexivity.
  - discriminate.
  - vm_compute. reflexivity.
  - discriminate.
  - reflexivity.
  - reflexivity.
Defined.

(** C7, counterexample.  A payload the image decoder rejects is answered
    with status 422, not with a bad-input status. *)
Lemma undecodable_image_not_bad_input :
  snd (@solve_equation rejecting_engine demo_algebra demo_pyset
         ∅ (str "ada") 0 (str "AAAA")) =
  Abort (HTTPException 422 (str "Unable to read equation")).
Proof. vm_compute. reflexivity. Qed.

(** C7, amended.  For an admitted call with a non-empty payload that the
    image decoder rejects, the answer is status 422 "Unable to read
    equation", the answer also given when recognition yields no text; the
    solver plays no part in it. *)
Theorem undecodable_image_unprocessable `{OcrEngine} `{Algebra} `{PySet}
    (B B' : gmap (list N) (list Q)) (user : pystr) (now : Q)
    (image_base64 payload : pystr) (data : list N) (e : exn) :
  _rate_limit B user now = (B', Respond tt) ->
  image_base64 <> [] ->
  data_uri_payload image_base64 = Return payload ->
  b64decode payload = Return data ->
  Image_open data = Raise e ->
  solve_equation B user now image_base64 =
    (B', Abort (HTTPException 422 (str "Unable to read equation"))) /\
  (forall other conf,
      other <> [] ->
      extract_math_from_image other = ([], conf) ->
      solve_equation B user now other = solve_equation B user now image_base64).
Proof.
  intros Hrl Himg Hpay Hdec Hopen.
  assert (Hbody : extract_math_body image_base64 = Raise e).
  { unfold extract_math_body. rewrite Hpay. cbn [py_bind]. rewrite Hdec. cbn [py_bind].
    by rewrite Hopen. }
  assert (Hans : solve_equation B user now image_base64 =
                 (B', Abort (HTTPException 422 (str "Unable to read equation")))).
  { apply (solve_equation_unread B B' user now image_base64 float_0_0 Hrl Himg).
    by apply (extract_of_body_Raise image_base64 e). }
  split; [exact Hans|].
  intros other conf Hother Hempty. rewrite Hans.
  by apply (solve_equation_unread B B' user now other conf).
Qed.

Lemma undecodable_image_unprocessable_witness :
  @solve_equation rejecting_engine demo_algebra demo_pyset ∅ (str "ada") 0
    (str "data:image/png;base64,AAAA") =
  (<[str "ada" := [0%Q]]> ∅, Abort (HTTPException 422 (str "Unable to read equation"))).
Proof.
  refine (proj1 (@undecodable_image_unprocessable rejecting_engine demo_algebra demo_pyset
                   ∅ (<[str "ada" := [0%Q]]> ∅) (str "ada") 0
                   (str "data:image/png;base64,AAAA") (str "AAAA") []
                   (Exception (str "cannot identify image file"))
                   _ _ _ eq_refl eq_refl)).
  - vm_compute. reflexivity.
  - discriminate.
  - vm_compute. reflexivity.
Defined.

(* ===================================================================== *)
(** * Further properties of [services/ocr.py] *)
(* ===================================================================== *)

(** ** Floats: the model reproduces binary64 *)

(** The literals are the floats nearest to 4/10, 6/10 and 100. *)
Lemma float_literals :
  int_truediv 4 10 = float_0_4 /\ int_truediv 6 10 = float_0_6 /\
  float_of_int 100 = float_100_0.
Proof. vm_compute. repeat split. Qed.

(** Quotients of integers, as CPython prints them: [3/2 = 1.5],
    [1/3 = 0x1.5555555555555p-2], [7/10 = 0x1.6666666666666p-1],
    [10**30/7 = 0x1.cd88ef2281b0bp+96]. *)
Lemma int_truediv_examples :
  int_truediv 3 2 = S754_finite false 6755399441055744 (-52) /\
  int_truediv 1 3 = S754_finite false 6004799503160661 (-54) /\
  int_truediv 7 10 = S754_finite false 6305039478318694 (-53) /\
  int_truediv (10 ^ 30) 7 = S754_finite false 8120488408686859 44.
Proof. vm_compute. repeat split. Qed.

(** On small operands the quotient of the integers is the IEEE quotient of
    the operands converted to floats. *)
Lemma int_truediv_is_float_division :
  forallb (fun a => forallb (fun b =>
      float_same (int_truediv (Z.of_nat a) (Z.of_nat b))
                 (SFdiv prec emax (float_of_int (Z.of_nat a)) (float_of_int (Z.of_nat b))))
    (seq 1 60)) (seq 0 80) = true.
Proof. vm_compute. reflexivity. Qed.

(** ** Floats: signs *)

Lemma shr_1_nonneg (mrs : shr_record) : (0 <= shr_m mrs)%Z -> (0 <= shr_m (shr_1 mrs))%Z.
Proof. destruct mrs as [m r s]. destruct m as [|[p|p|]|[p|p|]]; cbn; lia. Qed.

Lemma iter_shr_1_nonneg (p : positive) (mrs : shr_record) :
  (0 <= shr_m mrs)%Z -> (0 <= shr_m (SpecFloat.iter_pos shr_1 p mrs))%Z.
Proof.
  revert mrs. induction p as [p IH|p IH|]; intros mrs Hm; cbn [SpecFloat.iter_pos].
  - apply IH, IH, shr_1_nonneg, Hm.
  - apply IH, IH, Hm.
  - apply shr_1_nonneg, Hm.
Qed.

Lemma shr_nonneg (mrs : shr_record) (e n : Z) :
  (0 <= shr_m mrs)%Z -> (0 <= shr_m (fst (shr mrs e n)))%Z.
Proof. intros Hm. destruct n; cbn; try assumption. apply iter_shr_1_nonneg, Hm. Qed.

Lemma shr_fexp_nonneg (p e : Z) (m ex : Z) (l : location) :
  (0 <= m)%Z -> (0 <= shr_m (fst (shr_fexp p e m ex l)))%Z.
Proof.
  intros Hm. unfold shr_fexp. apply shr_nonneg.
  destruct l as [|[]]; cbn; assumption.
Qed.

Lemma round_nearest_even_nonneg (m : Z) (l : location) :
  (0 <= m)%Z -> (0 <= round_nearest_even m l)%Z.
Proof. intros Hm. destruct l as [|[]]; cbn; try destruct (Z.even m); lia. Qed.

(** Rounding a non-negative number gives no NaN and no minus sign. *)
Lemma binary_round_aux_nonneg (p e : Z) (mx ex : Z) (lx : location) :
  (0 <= mx)%Z -> float_nonneg (binary_round_aux p e false mx ex lx).
Proof.
  intros Hm. unfold binary_round_aux.
  pose proof (shr_fexp_nonneg p e mx ex lx Hm) as H1.
  destruct (shr_fexp p e mx ex lx) as [mrs' e']. cbn [fst] in H1.
  pose proof (shr_fexp_nonneg p e _ e' loc_Exact
                (round_nearest_even_nonneg _ (loc_of_shr_record mrs') H1)) as H2.
  destruct (shr_fexp p e _ e' loc_Exact) as [mrs'' e'']. cbn [fst] in H2.
  destruct (shr_m mrs'') as [|m|m]; [reflexivity| |lia].
  destruct (Z.leb e'' (e - p)); reflexivity.
Qed.

Lemma SFmul_nonneg (p e : Z) (x : spec_float) (my : positive) (ey : Z) :
  float_nonneg x -> float_nonneg (SFmul p e x (S754_finite false my ey)).
Proof.
  destruct x as [s|s| |s mx ex]; cbn [float_nonneg SFmul]; intros Hx; try contradiction;
    subst s; try reflexivity.
  apply binary_round_aux_nonneg. lia.
Qed.

Lemma SFmul_zero_l (p e : Z) (my : positive) (ey : Z) :
  SFmul p e (S754_zero false) (S754_finite false my ey) = S754_zero false.
Proof. reflexivity. Qed.

Lemma SFadd_zero_r (p e : Z) (x : spec_float) :
  float_nonneg x -> SFadd p e x (S754_zero false) = x.
Proof.
  destruct x as [s|s| |s mx ex]; cbn [float_nonneg SFadd]; intros Hx; try contradiction;
    subst s; reflexivity.
Qed.

Lemma SFdiv_core_binary_nonneg (p e : Z) (a b : Z) :
  (0 <= a)%Z -> (0 < b)%Z -> (0 <= fst (fst (SFdiv_core_binary p e a 0 b 0)))%Z.
Proof.
  intros Ha Hb. unfold SFdiv_core_binary.
  set (s := (0 - 0 - _)%Z).
  set (m' := match s with Zpos _ => Z.shiftl a s | Z0 => a | Zneg _ => 0%Z end).
  assert (Hm' : (0 <= m')%Z).
  { subst m'. destruct s; [assumption| |lia]. apply Z.shiftl_nonneg, Ha. }
  pose proof (Z.div_pos m' b Hm' Hb) as Hq. unfold Z.div in Hq.
  destruct (Z.div_eucl m' b) as [q r]. exact Hq.
Qed.

Lemma int_truediv_nonneg (a b : Z) :
  (0 <= a)%Z -> (0 < b)%Z -> float_nonneg (int_truediv a b).
Proof.
  intros Ha Hb. unfold int_truediv.
  pose proof (SFdiv_core_binary_nonneg prec emax a b Ha Hb) as Hq.
  destruct (SFdiv_core_binary prec emax a 0 b 0) as [[mz ez] lz]. cbn [fst] in Hq.
  destruct a; [reflexivity| |]; apply binary_round_aux_nonneg, Hq.
Qed.

(** Without NaN and minus signs, [a <= b] holds when [b < a] does not. *)
Lemma SFleb_of_not_SFltb (a b : spec_float) :
  float_nonneg a -> float_nonneg b -> SFltb b a = false -> SFleb a b = true.
Proof.
  unfold SFltb, SFleb.
  destruct a as [s|s| |s ma ea], b as [t|t| |t mb eb]; cbn [float_nonneg SFcompare];
    intros Ha Hb; try contradiction; subst; try reflexivity; try discriminate.
  rewrite (Z.compare_antisym ea eb).
  destruct (Z.compare ea eb); cbn [CompOpp]; try reflexivity; try discriminate.
  pose proof (Pos.compare_cont_antisym ma mb Datatypes.Eq) as Hc. cbn [CompOpp] in Hc. rewrite <- Hc.
  destruct (Pos.compare_cont Datatypes.Eq ma mb); cbn [CompOpp]; try reflexivity; discriminate.
Qed.

Lemma SFleb_zero_nonneg (a : spec_float) :
  float_nonneg a -> SFleb (S754_zero false) a = true.
Proof.
  unfold SFleb. destruct a as [s|s| |s ma ea]; cbn [float_nonneg SFcompare];
    intros Ha; try contradiction; subst; reflexivity.
Qed.

Lemma py_min_range (x : spec_float) (my : positive) (ey : Z) :
  float_nonneg x ->
  float_nonneg (py_min x (S754_finite false my ey)) /\
  float_le (py_min x (S754_finite false my ey)) (S754_finite false my ey) = true.
Proof.
  intros Hx. unfold py_min, float_lt, float_le.
  destruct (SFltb (S754_finite false my ey) x) eqn:Hlt.
  - split; [reflexivity|].
    unfold SFleb. cbn [SFcompare]. rewrite Z.compare_refl.
    rewrite Pos.compare_cont_refl. reflexivity.
  - split; [assumption|]. apply SFleb_of_not_SFltb; [assumption|reflexivity|assumption].
Qed.

(** ** The confidence *)

Lemma calculate_confidence_value (original_text cleaned_text : pystr) :
  let length_ratio :=
    int_truediv (Z.of_nat (length cleaned_text))
                (Z.of_nat (Nat.max (length original_text) 1)) in
  float_le float_0_0 (_calculate_confidence original_text cleaned_text) = true /\
  float_le (_calculate_confidence original_text cleaned_text) float_100_0 = true /\
  (cleaned_text = [] -> _calculate_confidence original_text cleaned_text = float_0_0) /\
  (cleaned_text <> [] ->
     _calculate_confidence original_text cleaned_text =
     py_min (float_mul (float_mul length_ratio float_0_4) float_100_0) float_100_0).
Proof.
  intros length_ratio.
  destruct cleaned_text as [|c cleaned].
  { repeat split; try reflexivity; try done. }
  unfold _calculate_confidence. cbv beta iota zeta.
  set (cleaned_text := c :: cleaned) in *.
  rewrite math_chars_count_zero.
  change (int_truediv (Z.of_nat 0) _) with (S754_zero false).
  fold length_ratio.
  assert (Hlr : float_nonneg length_ratio) by (apply int_truediv_nonneg; lia).
  unfold float_mul, float_add, float_0_6, float_0_4, float_100_0, float_0_0.
  rewrite SFmul_zero_l.
  rewrite SFadd_zero_r by (apply SFmul_nonneg, Hlr).
  destruct (py_min_range
              (SFmul prec emax
                 (SFmul prec emax length_ratio (S754_finite false 7205759403792794 (-54)))
                 (S754_finite false 7036874417766400 (-46)))
              7036874417766400 (-46)) as [Hn Hle].
  { apply SFmul_nonneg, SFmul_nonneg, Hlr. }
  split; [apply SFleb_zero_nonneg, Hn|]. split; [exact Hle|]. split; [done|].
  intros _. reflexivity.
Qed.

(** [_calculate_confidence] lies between 0.0 and 100.0 and is 0.0 for an
    empty cleaned text.  The share of "math characters" adds nothing, because
    its pattern never matches: for a non-empty cleaned text the value is the
    ratio of the lengths, times 0.4, times 100.0, capped at 100.0, each
    product rounded.  For the text ["ln"] cleaned to ["log"] that is
    [0x1.e000000000001p+5], which prints as 60.00000000000001. *)
Theorem calculate_confidence_closed_form (original_text cleaned_text : pystr) :
  let length_ratio :=
    int_truediv (Z.of_nat (length cleaned_text))
                (Z.of_nat (Nat.max (length original_text) 1)) in
  float_le float_0_0 (_calculate_confidence original_text cleaned_text) = true /\
  float_le (_calculate_confidence original_text cleaned_text) float_100_0 = true /\
  (cleaned_text = [] -> _calculate_confidence original_text cleaned_text = float_0_0) /\
  (cleaned_text <> [] ->
     _calculate_confidence original_text cleaned_text =
     py_min (float_mul (float_mul length_ratio float_0_4) float_100_0) float_100_0) /\
  _calculate_confidence (str "ln") (_clean_math_text (str "ln")) =
    S754_finite false 8444249301319681 (-47).
Proof.
  cbv zeta.
  destruct (calculate_confidence_value original_text cleaned_text) as (H0 & H100 & He & Hv).
  split; [exact H0|]. split; [exact H100|]. split; [exact He|]. split; [exact Hv|].
  vm_compute. reflexivity.
Qed.

(** [_enhance_image] keeps the shape of the image and leaves only the values
    0 and 255; a pixel equal to the threshold 128 becomes 0; enhancing twice
    is enhancing once. *)
Theorem enhance_image_binarizes (img : list (list Z)) :
  List.map (@length Z) (_enhance_image img) = List.map (@length Z) img /\
  (forall row p, In row (_enhance_image img) -> In p row -> p = 0%Z \/ p = 255%Z) /\
  _enhance_image (_enhance_image img) = _enhance_image img /\
  _enhance_image [[128; 129]%Z] = [[0; 255]%Z].
Proof.
  unfold _enhance_image. split; [|split; [|split; [|reflexivity]]].
  - rewrite List.map_map. apply List.map_ext. intros row. apply length_map.
  - intros row p [row0 [<- _]]%in_map_iff [p0 [<- _]]%in_map_iff.
    destruct (p0 >? 128)%Z; auto.
  - rewrite List.map_map. apply List.map_ext. intros row.
    rewrite List.map_map. apply List.map_ext. intros p.
    by destruct (p >? 128)%Z.
Qed.

Lemma split_on_contains (sep : N) (s : pystr) :
  contains [sep] s = true -> 2 <= length (split_on sep s).
Proof.
  induction s as [|c s IH]; [discriminate|]. intros Hc.
  cbn [split_on]. destruct (N.eqb_spec c sep) as [->|Hne].
  - destruct s; simpl; [lia|]. destruct (_ =? _)%N; [simpl; lia|].
    destruct (split_on sep s); simpl; lia.
  - apply contains_cons_inv in Hc as [Hc|Hc].
    + simpl in Hc. rewrite andb_true_r in Hc. apply N.eqb_eq in Hc. congruence.
    + specialize (IH Hc). destruct (split_on sep s) as [|w ws]; simpl in *; lia.
Qed.

Lemma split_on_app_sep (sep : N) (l r : pystr) :
  ~ In sep l -> split_on sep (l ++ sep :: r) = l :: split_on sep r.
Proof.
  induction l as [|c l IH]; intros Hn; simpl.
  - by rewrite N.eqb_refl.
  - destruct (N.eqb_spec c sep) as [->|_]; [exfalso; apply Hn; by left|].
    rewrite IH by (intros ?; apply Hn; by right). reflexivity.
Qed.

Lemma split_on_no_sep (sep : N) (l : pystr) : ~ In sep l -> split_on sep l = [l].
Proof.
  induction l as [|c l IH]; intros Hn; simpl; [reflexivity|].
  destruct (N.eqb_spec c sep) as [->|_]; [exfalso; apply Hn; by left|].
  rewrite IH by (intros ?; apply Hn; by right). reflexivity.
Qed.

(** The payload of a data URI is found without an [IndexError]: a text
    without comma is its own payload, and behind a header the payload is what
    stands between the first comma and the next one, if any. *)
Theorem data_uri_payload_segment (header body rest : pystr) :
  ~ In 44%N header -> ~ In 44%N body ->
  (forall s, exists p, data_uri_payload s = Return p) /\
  data_uri_payload body = Return body /\
  data_uri_payload (header ++ str "," ++ body) = Return body /\
  data_uri_payload (header ++ str "," ++ body ++ str "," ++ rest) = Return body.
Proof.
  intros Hh Hb. split; [|split; [|split]].
  - intros s. unfold data_uri_payload. destruct (contains (str ",") s) eqn:Hc; [|eauto].
    change (str ",") with [44%N] in Hc.
    apply split_on_contains in Hc. unfold py_index. revert Hc.
    destruct (split_on 44 s) as [|a [|b l]]; simpl; intros Hc;
      [lia | lia | exists b; reflexivity].
  - unfold data_uri_payload.
    assert (Hc : contains (str ",") body = false).
    { apply not_true_is_false. by intros ?%contains_char. }
    by rewrite Hc.
  - unfold data_uri_payload.
    assert (Hc : contains (str ",") (header ++ str "," ++ body) = true)
      by apply contains_intro.
    rewrite Hc. change (str ",") with [44%N]. cbn [app].
    rewrite split_on_app_sep, split_on_no_sep by done. reflexivity.
  - unfold data_uri_payload.
    assert (Hc : contains (str ",") (header ++ str "," ++ body ++ str "," ++ rest) = true)
      by apply contains_intro.
    rewrite Hc. change (str ",") with [44%N]. cbn [app].
    rewrite !split_on_app_sep by done. reflexivity.
Qed.

Lemma data_uri_payload_segment_witness :
  data_uri_payload (str "data:image/png;base64" ++ str "," ++ str "iVBORw0KGgo=") =
  Return (str "iVBORw0KGgo=").
Proof.
  refine (proj1 (proj2 (proj2 (data_uri_payload_segment
            (str "data:image/png;base64") (str "iVBORw0KGgo=") [] _ _)))).
  - vm_compute. intuition discriminate.
  - vm_compute. intuition discriminate.
Defined.

(** Whatever the engines do, [extract_math_from_image] returns a confidence
    between 0 and 100, and confidence 0 whenever it returns the empty
    text. *)
Theorem extract_math_confidence_range `{OcrEngine} (image_base64 : pystr) :
  float_le float_0_0 (snd (extract_math_from_image image_base64)) = true /\
  float_le (snd (extract_math_from_image image_base64)) float_100_0 = true /\
  (fst (extract_math_from_image image_base64) = [] ->
   snd (extract_math_from_image image_base64) = float_0_0).
Proof.
  unfold extract_math_from_image, extract_math_body.
  destruct (data_uri_payload image_base64) as [payload|e]; cbn [py_bind];
    [|repeat split; done].
  destruct (b64decode payload) as [data|e]; cbn [py_bind]; [|repeat split; done].
  destruct (Image_open data) as [img|e]; cbn [py_bind]; [|repeat split; done].
  destruct (convert_L img) as [gray|e]; cbn [py_bind]; [|repeat split; done].
  destruct (image_to_string (_enhance_image gray)) as [text|e]; cbn [py_bind fst snd];
    [|repeat split; done].
  destruct (calculate_confidence_value text (_clean_math_text text))
    as (H0 & H100 & Hempty & _).
  auto.
Qed.

(** ** What cleaning keeps and what it cannot produce *)

Lemma rewrites_keeps (old new s out : pystr) (c : N) :
  rewrites old new s out -> ~ In c old -> In c s -> In c out.
Proof.
  induction 1 as [|rest out _ IH|d s out _ _ IH]; intros Hold Hin.
  - destruct Hin.
  - apply in_app_iff. right. apply IH; [done|].
    apply in_app_iff in Hin as [Hin|Hin]; [by destruct Hold | done].
  - destruct Hin as [->|Hin]; [by left | right; by apply IH].
Qed.

Lemma apply_replacements_keeps (rules : list (pystr * pystr)) (s : pystr) (c : N) :
  keys_nonempty rules ->
  forallb (fun r => negb (existsb (N.eqb c) (fst r))) rules = true ->
  In c s -> In c (apply_replacements rules s).
Proof.
  intros Hne. revert s. induction Hne as [|[old new] rules Hr Hne IH]; intros s Hall Hin.
  - exact Hin.
  - simpl in Hall. apply andb_true_iff in Hall as [Hold Hall].
    simpl. apply IH; [exact Hall|].
    apply (rewrites_keeps old new s _ c (str_replace_rewrites old new s Hr)); [|exact Hin].
    intros Hc. apply negb_true_iff in Hold.
    assert (existsb (N.eqb c) old = true); [|congruence].
    apply existsb_exists. exists c. split; [exact Hc | apply N.eqb_refl].
Qed.

Lemma contains_In (p s : pystr) (c : N) :
  contains p s = true -> In c p -> In c s.
Proof.
  intros (a & b & ->)%contains_spec Hc.
  apply in_app_iff. right. apply in_app_iff. by left.
Qed.

(** The step "remove any non-math characters" removes nothing and [strip]
    finds nothing to strip: cleaning is the removal of whitespace followed by
    the replacement loop, and a character that is no whitespace and occurs in
    no key of the table (an underscore, a dollar sign) survives it. *)
Theorem clean_math_text_keeps_foreign_chars (text : pystr) (c : N) :
  foreign_char c = true ->
  In c text ->
  _clean_math_text text = apply_replacements replacements (re_sub_whitespace text) /\
  In c (_clean_math_text text).
Proof.
  intros [Hsp Hkeys]%andb_true_iff Hin. split; [apply clean_math_text_eq|].
  rewrite clean_math_text_eq.
  apply apply_replacements_keeps; [apply replacements_keys_nonempty | exact Hkeys |].
  apply filter_In. by split.
Qed.

Lemma clean_math_text_keeps_foreign_chars_witness :
  In 95%N (_clean_math_text (str "__import__('os')")).
Proof.
  apply (clean_math_text_keeps_foreign_chars (str "__import__('os')") 95).
  - vm_compute. reflexivity.
  - left. reflexivity.
Defined.

(** No cleaned text contains ["exec"], since it contains no [x]: of the four
    forbidden tokens the route looks for in a cleaned text, that one is never
    found. *)
Theorem cleaned_text_never_contains_exec (text : pystr) :
  contains (str "exec") (_clean_math_text text) = false /\
  existsb (fun bad => contains bad (_clean_math_text text)) forbidden =
  existsb (fun bad => contains bad (_clean_math_text text))
          [str "__"; str "import"; str "lambda"].
Proof.
  assert (Hexec : contains (str "exec") (_clean_math_text text) = false).
  { apply not_true_is_false. intros Hc.
    apply (clean_math_text_char_gone 0 120%N (str "*") text); [reflexivity | reflexivity |].
    apply (contains_In _ _ 120%N Hc). right. left. reflexivity. }
  split; [exact Hexec|].
  unfold forbidden. cbn [existsb]. rewrite Hexec. by rewrite orb_false_l.
Qed.

(** In a cleaned text every comma separates equations: the cleaner leaves no
    [[] behind, so the test for simultaneous equations reduces to the
    presence of [;] or [,]. *)
Theorem cleaned_text_comma_means_system (text : pystr) :
  is_system (_clean_math_text text) =
  contains (str ";") (_clean_math_text text) || contains (str ",") (_clean_math_text text).
Proof.
  unfold is_system.
  assert (Hb : contains (str "[") (_clean_math_text text) = false).
  { apply not_true_is_false. intros Hc. apply contains_char in Hc.
    by apply (clean_math_text_char_gone 8 91%N (str "(") text) in Hc. }
  rewrite Hb. by rewrite andb_true_r.
Qed.

(* ===================================================================== *)
(** * Further properties of [routes/solve.py] *)
(* ===================================================================== *)

(** Every way [solve_equation] can end.  A refusal is one of four: 429 from
    the admission check, 400 for an empty payload, 422 for an unreadable
    image, 400 for a forbidden token; the 422 "Could not solve expression" of
    the handler around [solve_generic] is never produced.  A success carries
    the cleaned text, which is not empty and holds no forbidden token, and
    the confidence of the OCR service. *)
Theorem solve_equation_outcomes `{OcrEngine} `{Algebra} `{PySet}
    (B : gmap (list N) (list Q)) (user : pystr) (now : Q) (image_base64 : pystr) :
  match snd (solve_equation B user now image_base64) with
  | Abort e =>
      e = HTTPException 429 (str "Rate limit exceeded. Please slow down.") \/
      e = HTTPException 400 (str "Image is required") \/
      e = HTTPException 422 (str "Unable to read equation") \/
      e = HTTPException 400 (str "Invalid expression content")
  | Respond r =>
      expression r = fst (extract_math_from_image image_base64) /\
      confidence r = snd (extract_math_from_image image_base64) /\
      expression r <> [] /\
      existsb (fun bad => contains bad (expression r)) forbidden = false
  end.
Proof.
  unfold solve_equation.
  destruct (rate_limit_cases B user now) as [[_ ->] | [_ ->]]; cbn [snd]; [by left|].
  destruct image_base64 as [|c img]; [right; by left|].
  destruct (extract_math_from_image (c :: img)) as [latex conf].
  destruct latex as [|d latex]; [right; right; by left|].
  destruct (existsb _ forbidden) eqn:Hbad; [right; right; by right|].
  destruct (solve_generic_returns (d :: latex)) as [[sol st] ->].
  cbn [expression confidence fst snd]. repeat split; done.
Qed.

(** The dict after a request is the dict after its admission check, however
    the request ends: an admitted call has its time appended to the caller's
    purged list even when it is then refused for its payload or its text. *)
Theorem solve_equation_consumes_slot `{OcrEngine} `{Algebra} `{PySet}
    (B : gmap (list N) (list Q)) (user : pystr) (now : Q) (image_base64 : pystr) :
  fst (solve_equation B user now image_base64) = fst (_rate_limit B user now) /\
  (admitted (snd (_rate_limit B user now)) = true ->
   bucket_of (fst (solve_equation B user now image_base64)) user =
     purge (now - _WINDOW_SECONDS) (bucket_of B user) ++ [now]) /\
  (admitted (snd (_rate_limit B user now)) = false ->
   snd (solve_equation B user now image_base64) =
     Abort (HTTPException 429 (str "Rate limit exceeded. Please slow down."))).
Proof.
  unfold solve_equation.
  destruct (rate_limit_cases B user now) as [[_ ->] | [_ ->]]; cbn [fst snd admitted].
  - repeat split; done.
  - split; [reflexivity|]. split; [|done]. intros _. apply bucket_of_insert.
Qed.

Lemma purge_repeat (theta t : Q) (n : nat) :
  purge theta (repeat t n) = if Qle_bool theta t then repeat t n else [].
Proof.
  induction n as [|n IH]; simpl; [by destruct (Qle_bool theta t)|].
  rewrite IH. by destruct (Qle_bool theta t).
Qed.

(** The window is closed at its old end.  With [_MAX_CALLS] calls recorded
    at the instant [t], a further call at [now] is denied exactly when
    [now <= t + 60]: a call that comes precisely sixty seconds later is still
    denied. *)
Theorem rate_limit_boundary (B : gmap (list N) (list Q)) (user : pystr) (t now : Q) :
  bucket_of B user = repeat t _MAX_CALLS ->
  (admitted (snd (_rate_limit B user now)) = false <-> (now <= t + 60)%Q) /\
  admitted (snd (_rate_limit B user (t + 60))) = false.
Proof.
  intros Hb.
  assert (Hiff : forall now',
             admitted (snd (_rate_limit B user now')) = false <-> (now' <= t + 60)%Q).
  { intros now'. unfold _rate_limit. rewrite Hb, purge_repeat.
    destruct (Qle_bool (now' - _WINDOW_SECONDS) t) eqn:Hle.
    - rewrite repeat_length. cbn. split; [intros _|reflexivity].
      apply Qle_bool_iff in Hle. unfold _WINDOW_SECONDS in Hle. lra.
    - cbn. split; [discriminate|]. intros Hnow. exfalso.
      assert (Hq : Qle_bool (now' - _WINDOW_SECONDS) t = true); [|congruence].
      apply Qle_bool_iff. unfold _WINDOW_SECONDS. lra. }
  split; [apply Hiff|]. apply Hiff. apply Qle_refl.
Qed.

Lemma rate_limit_boundary_witness :
  let B : gmap (list N) (list Q) := {[ str "ada" := repeat 5%Q 30 ]} in
  admitted (snd (_rate_limit B (str "ada") (5 + 60)%Q)) = false.
Proof.
  intros B.
  apply (proj2 (rate_limit_boundary B (str "ada") 5 0 ltac:(reflexivity))).
Defined.

(** A caller the dict does not know is admitted, and the dict then holds the
    one-element list of that call. *)
Theorem rate_limit_first_call (B : gmap (list N) (list Q)) (user : pystr) (now : Q) :
  B !! user = None ->
  _rate_limit B user now = (<[user := [now]]> B, Respond tt).
Proof.
  intros Hnone. unfold _rate_limit, bucket_of. rewrite Hnone. reflexivity.
Qed.

Lemma rate_limit_first_call_witness :
  _rate_limit ∅ (str "ada") 7 = (<[str "ada" := [7%Q]]> ∅, Respond tt).
Proof. apply (rate_limit_first_call ∅ (str "ada") 7). apply lookup_empty. Defined.

Lemma last_call_time_snoc (user : pystr) (calls : list (list N * Q)) (call : list N * Q) :
  last_call_time user (calls ++ [call]) =
  if str_eqb (fst call) user then Some (snd call) else last_call_time user calls.
Proof.
  unfold last_call_time. rewrite rev_app_distr. simpl.
  by destruct (str_eqb (fst call) user).
Qed.

Lemma last_call_time_In (user : pystr) (calls : list (list N * Q)) (t : Q) :
  last_call_time user calls = Some t -> In t (List.map snd calls).
Proof.
  unfold last_call_time.
  destruct (List.filter _ (rev calls)) as [|call l] eqn:Hf; [discriminate|].
  intros [= <-].
  assert (Hin : In call (List.filter (fun call => str_eqb (fst call) user) (rev calls)))
    by (rewrite Hf; by left).
  apply filter_In in Hin as [Hin _]. apply in_rev in Hin.
  apply in_map_iff. eauto.
Qed.

Lemma purge_snoc_now (now : Q) (l : list Q) :
  purge (now - _WINDOW_SECONDS) (l ++ [now]) = purge (now - _WINDOW_SECONDS) l ++ [now].
Proof.
  rewrite purge_app. f_equal. unfold purge. simpl.
  assert (Hle : Qle_bool (now - _WINDOW_SECONDS) now = true).
  { apply Qle_bool_iff. unfold _WINDOW_SECONDS. lra. }
  by rewrite Hle.
Qed.

Lemma bucket_is_recent_admitted (calls : list (list N * Q)) :
  chronological calls ->
  forall user,
    bucket_of (fst (run_calls calls)) user =
    match last_call_time user calls with
    | None => []
    | Some t => purge (t - _WINDOW_SECONDS) (admitted_times user (snd (run_calls calls)))
    end.
Proof.
  induction calls as [|[caller now] calls IH] using rev_ind; intros Hchron user.
  - unfold bucket_of. simpl. by rewrite lookup_empty.
  - apply chronological_snoc in Hchron as [Hchron Hnow]. cbn [snd] in Hnow.
    specialize (IH Hchron).
    pose proof (purged_bucket_is_recent calls caller now Hnow) as Hrecent.
    rewrite last_call_time_snoc. cbn [fst snd].
    rewrite run_calls_snoc. unfold rate_limit_step. cbn [fst snd].
    destruct (rate_limit_cases (fst (run_calls calls)) caller now) as [[_ ->] | [_ ->]];
      cbn [fst snd admitted]; rewrite admitted_times_snoc.
    + rewrite andb_false_r, app_nil_r.
      destruct (str_eqb caller user) eqn:Hu.
      * apply str_eqb_eq in Hu as ->. by rewrite bucket_of_insert.
      * rewrite bucket_of_insert_ne; [apply IH|].
        intros ->. by rewrite str_eqb_refl in Hu.
    + rewrite andb_true_r.
      destruct (str_eqb caller user) eqn:Hu.
      * apply str_eqb_eq in Hu as ->.
        by rewrite bucket_of_insert, purge_snoc_now, Hrecent.
      * rewrite app_nil_r, bucket_of_insert_ne; [apply IH|].
        intros ->. by rewrite str_eqb_refl in Hu.
Qed.

(** What a caller's list holds.  From the empty dict, along calls made at
    non-decreasing times, the list of a caller is empty if the caller never
    called, and otherwise holds, in order, exactly the times of the caller's
    admitted calls that were no older than sixty seconds at the caller's
    latest call. *)
Theorem rate_limit_bucket_contents (calls : list (list N * Q)) (user : pystr) :
  chronological calls ->
  bucket_of (fst (run_calls calls)) user =
  match last_call_time user calls with
  | None => []
  | Some t => purge (t - _WINDOW_SECONDS) (admitted_times user (snd (run_calls calls)))
  end.
Proof. intros Hchron. by apply bucket_is_recent_admitted. Qed.

Lemma rate_limit_bucket_contents_witness :
  let calls := [(str "ada", 0%Q); (str "bob", 1%Q); (str "ada", 61%Q)] in
  bucket_of (fst (run_calls calls)) (str "ada") = [61%Q].
Proof.
  intros calls.
  rewrite (rate_limit_bucket_contents calls (str "ada")).
  - vm_compute. reflexivity.
  - unfold chronological, calls. simpl. repeat constructor; by apply Qle_bool_iff.
Defined.

(* ===================================================================== *)
(** * Further properties of [services/solver.py] *)
(* ===================================================================== *)

(** In the branch for simultaneous equations a part is cut at its first [=]:
    the two sides are parsed in turn and joined by [sp.Eq]; a part with a
    second [=] loses everything behind it. *)
Theorem parse_part_first_two_sides `{Algebra} (l r rest : pystr) :
  ~ In 61%N l -> ~ In 61%N r ->
  parse_part (l ++ str "=" ++ r) =
    (let* lhs := sympify l in let* rhs := sympify r in Eq lhs rhs) /\
  parse_part (l ++ str "=" ++ r ++ str "=" ++ rest) = parse_part (l ++ str "=" ++ r).
Proof.
  intros Hl Hr.
  assert (H1 : parse_part (l ++ str "=" ++ r) =
               (let* lhs := sympify l in let* rhs := sympify r in Eq lhs rhs)).
  { unfold parse_part.
    assert (Hc : contains (str "=") (l ++ str "=" ++ r) = true) by apply contains_intro.
    rewrite Hc. change (str "=") with [61%N]. cbn [negb app].
    rewrite split_on_app_sep, split_on_no_sep by done. reflexivity. }
  split; [exact H1|]. rewrite H1. unfold parse_part.
  assert (Hc : contains (str "=") (l ++ str "=" ++ r ++ str "=" ++ rest) = true)
    by apply contains_intro.
  rewrite Hc. change (str "=") with [61%N]. cbn [negb app].
  rewrite !split_on_app_sep by done. reflexivity.
Qed.

Lemma parse_part_first_two_sides_witness :
  @parse_part demo_algebra (str "7" ++ str "=" ++ str "x^2" ++ str "=" ++ str "junk") =
  @parse_part demo_algebra (str "7" ++ str "=" ++ str "x^2").
Proof.
  refine (proj2 (@parse_part_first_two_sides demo_algebra (str "7") (str "x^2") (str "junk") _ _)).
  - vm_compute. intuition discriminate.
  - vm_compute. intuition discriminate.
Defined.

(** A text that parses to something other than an equality is solved as
    "expression = 0", for the first element in the iteration order of its
    free symbols, or for [x] when it has none. *)
Theorem expression_solved_as_equal_to_zero `{Algebra} `{PySet}
    (text : pystr) (e eq : expr) (free : gset (list N)) :
  is_system text = false ->
  sympify text = Return e ->
  is_Equality e = false ->
  Eq_zero e = Return eq ->
  free_symbols e = Return free ->
  solve_generic_body text = solve_expression_for e eq (first_or_x (set_to_list free)) /\
  (free = ∅ -> first_or_x (set_to_list free) = str "x") /\
  (free <> ∅ -> first_or_x (set_to_list free) ∈ free).
Proof.
  intros Hsys Hparse Heq Hzero Hfree. split; [|apply first_or_x_spec].
  unfold solve_generic_body. rewrite Hsys, Hparse. cbn [py_bind].
  rewrite Heq, Hzero. cbn [py_bind]. by rewrite Hfree.
Qed.

Lemma expression_solved_as_equal_to_zero_witness :
  @solve_generic demo_algebra demo_pyset (str "7") =
  Return (str "x", str "Solved expression <expr> = 0 for x -> x").
Proof.
  assert (Hbody : @solve_generic_body demo_algebra demo_pyset (str "7") =
                  Return (str "x", str "Solved expression <expr> = 0 for x -> x")).
  { rewrite (proj1 (@expression_solved_as_equal_to_zero demo_algebra demo_pyset (str "7")
                      (DemoExpr false [] (fun _ => Finite 7))
                      (DemoExpr true [] (fun _ => Finite 7)) ∅
                      eq_refl eq_refl eq_refl eq_refl eq_refl)).
    vm_compute. reflexivity. }
  unfold solve_generic. by rewrite Hbody.
Defined.

(** Simultaneous equations are solved for a list of variables that is never
    empty: the free symbols of all the parts, or [x] alone when there are
    none. *)
Theorem system_solved_for_all_free_symbols `{Algebra} `{PySet}
    (text : pystr) (eqs : list expr) (frees : list (gset (list N))) :
  is_system text = true ->
  py_map parse_part
    (List.map strip (split_on 44%N (str_replace (str ";") (str ",") text))) = Return eqs ->
  py_map free_symbols eqs = Return frees ->
  exists vars,
    vars <> [] /\
    (forall v, In v vars -> v ∈ ⋃ frees \/ (⋃ frees = ∅ /\ v = str "x")) /\
    (forall v, v ∈ ⋃ frees -> In v vars) /\
    solve_generic_body text =
      (let* sol := solve_system eqs vars in
       let* sol_latex := latex sol in
       let* eqs_str := str_exprs eqs in
       let* sol_str := str_solution sol in
       Return (sol_latex,
               str "Solved system of equations for " ++ str_symbols vars ++
               str ": " ++ eqs_str ++ str " -> " ++ sol_str)).
Proof.
  intros Hsys Hparts Hfrees.
  exists (match set_to_list (⋃ frees) with [] => [str "x"] | _ => set_to_list (⋃ frees) end).
  split; [|split; [|split]].
  - by destruct (set_to_list (⋃ frees)).
  - intros v Hv. destruct (set_to_list (⋃ frees)) as [|w ws] eqn:Hl.
    + right. destruct Hv as [<-|[]]. split; [|reflexivity].
      apply set_eq. intros y. rewrite <- set_to_list_elements, Hl. set_solver.
    + left. apply set_to_list_elements. by rewrite Hl.
  - intros v Hv. apply set_to_list_elements in Hv.
    by destruct (set_to_list (⋃ frees)).
  - unfold solve_generic_body, solve_system_branch. rewrite Hsys, Hparts. cbn [py_bind].
    by rewrite Hfrees.
Qed.

Lemma system_solved_for_all_free_symbols_witness :
  @solve_generic_body demo_algebra demo_pyset (str "x^2 ; 7") =
  Return (str "x", str "Solved system of equations for [x]: <eqs> -> x").
Proof.
  destruct (@system_solved_for_all_free_symbols demo_algebra demo_pyset (str "x^2 ; 7")
              [DemoExpr false [str "x"] (fun x => Finite (x * x));
               DemoExpr false [] (fun _ => Finite 7)]
              [{[ str "x" ]}; ∅])
    as (vars & _ & _ & _ & _).
  - reflexivity.
  - vm_compute. reflexivity.
  - vm_compute. reflexivity.
  - vm_compute. reflexivity.
Defined.

(** ** Cleaning lengthens a text by half at most *)

Lemma rewrites_length (old new s out : pystr) :
  rewrites old new s out ->
  length out * length old <= length s * Nat.max (length old) (length new).
Proof.
  induction 1 as [|rest out _ IH|c s out _ _ IH]; simpl; [lia|..].
  - rewrite !length_app. nia.
  - nia.
Qed.

Lemma apply_replacements_shrinks (rules : list (pystr * pystr)) (s : pystr) :
  keys_nonempty rules ->
  forallb (fun r => length (snd r) <=? length (fst r)) rules = true ->
  length (apply_replacements rules s) <= length s.
Proof.
  intros Hne. revert s. induction Hne as [|[old new] rules Hr Hne IH]; intros s Hall.
  - reflexivity.
  - cbn [forallb fst snd] in Hall. apply andb_true_iff in Hall as [Hle%Nat.leb_le Hall].
    cbn [apply_replacements fold_left fst snd] in *.
    etrans; [apply IH, Hall|].
    pose proof (rewrites_length old new s _ (str_replace_rewrites old new s Hr)) as Hlen.
    rewrite Nat.max_l in Hlen by exact Hle.
    assert (Hpos : 0 < length old) by (destruct old; [done | simpl; lia]).
    nia.
Qed.

(** Only the rule [ln -> log] lengthens a text, by half at most. *)
Lemma clean_math_text_length (text : pystr) :
  2 * length (_clean_math_text text) <= 3 * length text.
Proof.
  rewrite clean_math_text_eq.
  assert (Hws : length (re_sub_whitespace text) <= length text)
    by apply List.filter_length_le.
  replace replacements with
    (take 19 replacements ++ [(str "ln", str "log")] ++ drop 20 replacements)
    by reflexivity.
  rewrite !apply_replacements_app.
  set (s1 := apply_replacements (take 19 replacements) (re_sub_whitespace text)).
  assert (H1 : length s1 <= length (re_sub_whitespace text)).
  { apply apply_replacements_shrinks; [|vm_compute; reflexivity].
    unfold keys_nonempty. repeat constructor; discriminate. }
  set (s2 := apply_replacements [(str "ln", str "log")] s1).
  assert (H2 : 2 * length s2 <= 3 * length s1).
  { pose proof (rewrites_length (str "ln") (str "log") s1 _
                  (str_replace_rewrites (str "ln") (str "log") s1 ltac:(discriminate))) as Hl.
    change (length (str "ln")) with 2 in Hl. change (length (str "log")) with 3 in Hl.
    unfold s2. cbn [apply_replacements fold_left fst snd]. simpl Nat.max in Hl. lia. }
  assert (H3 : length (apply_replacements (drop 20 replacements) s2) <= length s2).
  { apply apply_replacements_shrinks; [|vm_compute; reflexivity].
    unfold keys_nonempty. repeat constructor; discriminate. }
  lia.
Qed.

(** Cleaning lengthens a text by half at most: the cleaned text has at most
    3/2 times the characters of the recognized text, so the ratio of lengths
    that [_calculate_confidence] scales is at most 3/2.  The bound is reached:
    ["ln"] is cleaned to ["log"]. *)
Theorem clean_math_text_at_most_half_longer (text : pystr) :
  2 * length (_clean_math_text text) <= 3 * length text /\
  _clean_math_text (str "ln") = str "log".
Proof. split; [apply clean_math_text_length | vm_compute; reflexivity]. Qed.
